(** * A shallow embedding of the Whitespace interpreter

    The development follows [whitespace_interpreter.py]: the class
    [Interpreter] becomes a record, every method a computation in a small
    state-and-exception monad over that record, and the nested classes
    [Stack], [IO], [FlowControl], [Arithmetic] and [Heap] become modules of
    the same names.  Calls to [print] only trace to the console and are
    left out, but for the one in [output_char]: the text it prints holds a
    character chosen by the program, which the console may be unable to
    encode.  Program text is printed through [clean] only, and is made of
    the three blank characters once [whitespace] has put it through
    [uncomment]. *)

From Stdlib Require Import ZArith List String Ascii DecimalString Lia.
From stdpp Require Import base numbers list strings gmap.

Local Open Scope Z_scope.

(** ** Python values *)

(** A Python [str] is a sequence of Unicode code points; a character is
    kept as its code point. *)
Definition char := Z.
Abbreviation str := (list char).

Definition SPACE : char := 32.
Definition TAB : char := 9.
Definition LF : char := 10.

(** [self.pos] holds an [int], or [float('inf')] once [exit] has run; the
    label table and the return stack store values read from [self.pos]. *)
Inductive number :=
| Int (z : Z)
| Inf.

#[global] Instance number_eq_dec : EqDecision number.
Proof. solve_decision. Defined.

(** The exceptions the interpreter and the built-ins it calls can raise. *)
Inductive exn :=
| SyntaxError
| KeyError
| IndexError
| ValueError
| ZeroDivisionError
| RuntimeError
| TypeError
| AttributeError
| OverflowError
| UnicodeEncodeError.

Inductive result (A : Type) :=
| Ok (a : A)
| Raise (e : exn).
Arguments Ok {A} a.
Arguments Raise {A} e.

Definition len {A} (l : list A) : Z := Z.of_nat (length l).

(** Normalisation of a slice bound against a sequence of length [n]:
    a negative bound counts from the end, and bounds are clipped to
    [0..n]. *)
Definition clamp (n i : Z) : Z :=
  if i <? 0 then Z.max 0 (i + n) else Z.min i n.

(** [s[i:j]] *)
Definition slice {A} (s : list A) (i j : Z) : list A :=
  let i' := clamp (len s) i in
  let j' := clamp (len s) j in
  take (Z.to_nat (j' - i')) (drop (Z.to_nat i') s).

Fixpoint index_from (c : char) (s : str) (k : Z) : Z :=
  match s with
  | [] => -1
  | x :: r => if x =? c then k else index_from c r (k + 1)
  end.

(** [s.find(c, start)] for a one-character needle [c]: the lowest index
    at or after [start] holding [c], or [-1]. *)
Definition find (s : str) (c : char) (start : Z) : Z :=
  let i := clamp (len s) start in
  index_from c (drop (Z.to_nat i) s) i.

(** [l.index(x)]: position of the first occurrence, [ValueError] if none. *)
Fixpoint list_index (x : char) (l : list char) : result Z :=
  match l with
  | [] => Raise ValueError
  | y :: r =>
      if y =? x then Ok 0
      else match list_index x r with
           | Ok k => Ok (k + 1)
           | Raise e => Raise e
           end
  end.

(** [l.pop()]: the last element and the list without it. *)
Definition list_pop {A} (l : list A) : option (A * list A) :=
  match last l with
  | Some x => Some (x, removelast l)
  | None => None
  end.

(** [l[i]] for an integer index, negative indices counting from the end. *)
Definition getitem {A} (l : list A) (i : Z) : result A :=
  let k := if i <? 0 then i + len l else i in
  if (k <? 0) || (len l <=? k) then Raise IndexError
  else match l !! Z.to_nat k with
       | Some x => Ok x
       | None => Raise IndexError
       end.

(** [chr(i)]: defined on [0 .. 0x10FFFF], surrogates included. Outside
    that range CPython raises [ValueError] as long as the argument fits a
    C [int], and [OverflowError] once it does not. *)
Definition chr (i : Z) : result char :=
  if (0 <=? i) && (i <=? 1114111) then Ok i
  else if (-2147483648 <=? i) && (i <=? 2147483647) then Raise ValueError
  else Raise OverflowError.

(** The code points [0xD800 .. 0xDFFF]. *)
Definition is_surrogate (c : char) : bool := (55296 <=? c) && (c <=? 57343).

(** [ord(c)] *)
Definition ord (c : char) : Z := c.

(** [str(n)] for an integer: decimal digits, with a leading minus sign for
    negative numbers. *)
Definition str_of_int (n : Z) : str :=
  map (fun a => Z.of_N (N_of_ascii a))
      (list_ascii_of_string (NilZero.string_of_int (Z.to_int n))).

(** [int(binary, 2)] on the digits of [binary]; the empty string is not a
    number. *)
Definition int_base2 (bits : list Z) : result Z :=
  match bits with
  | [] => Raise ValueError
  | _ => Ok (fold_left (fun acc b => 2 * acc + b) bits 0)
  end.

(** Python's built-in [int] applied to a decimal string is taken as given:
    [None] stands for its [ValueError]. *)
Class Builtins := { int_of_str : str -> option Z }.

(** ** WhitespaceInt *)

Module WhitespaceInt.

Definition keys : list char := [SPACE; TAB].

Fixpoint indices (code : str) : result (list Z) :=
  match code with
  | [] => Ok []
  | x :: r =>
      match list_index x keys with
      | Raise e => Raise e
      | Ok k => match indices r with
                | Raise e => Raise e
                | Ok ks => Ok (k :: ks)
                end
      end
  end.

(** Converts the Whitespace representation of a number to an integer.
    [binary] is kept as the list of digits [keys.index(x)] rather than
    as the string of their decimal spellings. *)
Definition from_whitespace (code : str) : result Z :=
  if len code =? 1 then Ok 0
  else
    match code with
    | [] => Raise IndexError
    | c0 :: rest =>
        match list_index c0 keys with
        | Raise e => Raise e
        | Ok k0 =>
            let sign := 2 * (1 - k0) - 1 in
            match indices rest with
            | Raise e => Raise e
            | Ok binary =>
                match int_base2 binary with
                | Raise e => Raise e
                | Ok n => Ok (n * sign)
                end
            end
        end
    end.

End WhitespaceInt.

(** ** The interpreter state *)

Record Interpreter := mkInterpreter {
  stack : list Z;
  heap : gmap Z Z;
  pos : number;
  code : str;
  inp : str;
  input : list char;
  output : str;
  loading : bool;
  instruction : string;
  command : string;
  labels : gmap str number;
  return_positions : list number
}.

(** [self.code_length] is set to [len(code)] by the constructor and never
    assigned again. *)
Definition code_length (s : Interpreter) : Z := len (code s).

Definition stack_size (s : Interpreter) : Z := len (stack s).

Definition Interpreter_init (code : str) (inp : str) : Interpreter :=
  {| stack := []; heap := ∅; pos := Int 0; code := code; inp := inp;
     input := inp; output := []; loading := true;
     instruction := ""; command := "";
     labels := ∅; return_positions := [] |}.

Definition set_stack (v : list Z) (s : Interpreter) : Interpreter :=
  mkInterpreter v (heap s) (pos s) (code s) (inp s) (input s) (output s)
    (loading s) (instruction s) (command s) (labels s) (return_positions s).
Definition set_heap (v : gmap Z Z) (s : Interpreter) : Interpreter :=
  mkInterpreter (stack s) v (pos s) (code s) (inp s) (input s) (output s)
    (loading s) (instruction s) (command s) (labels s) (return_positions s).
Definition set_pos (v : number) (s : Interpreter) : Interpreter :=
  mkInterpreter (stack s) (heap s) v (code s) (inp s) (input s) (output s)
    (loading s) (instruction s) (command s) (labels s) (return_positions s).
Definition set_input (v : list char) (s : Interpreter) : Interpreter :=
  mkInterpreter (stack s) (heap s) (pos s) (code s) (inp s) v (output s)
    (loading s) (instruction s) (command s) (labels s) (return_positions s).
Definition set_output (v : str) (s : Interpreter) : Interpreter :=
  mkInterpreter (stack s) (heap s) (pos s) (code s) (inp s) (input s) v
    (loading s) (instruction s) (command s) (labels s) (return_positions s).
Definition set_loading (v : bool) (s : Interpreter) : Interpreter :=
  mkInterpreter (stack s) (heap s) (pos s) (code s) (inp s) (input s)
    (output s) v (instruction s) (command s) (labels s) (return_positions s).
Definition set_instruction (v : string) (s : Interpreter) : Interpreter :=
  mkInterpreter (stack s) (heap s) (pos s) (code s) (inp s) (input s)
    (output s) (loading s) v (command s) (labels s) (return_positions s).
Definition set_command (v : string) (s : Interpreter) : Interpreter :=
  mkInterpreter (stack s) (heap s) (pos s) (code s) (inp s) (input s)
    (output s) (loading s) (instruction s) v (labels s) (return_positions s).
Definition set_labels (v : gmap str number) (s : Interpreter) : Interpreter :=
  mkInterpreter (stack s) (heap s) (pos s) (code s) (inp s) (input s)
    (output s) (loading s) (instruction s) (command s) v (return_positions s).
Definition set_return_positions (v : list number) (s : Interpreter)
  : Interpreter :=
  mkInterpreter (stack s) (heap s) (pos s) (code s) (inp s) (input s)
    (output s) (loading s) (instruction s) (command s) (labels s) v.

(** ** The monad of methods: a state transformer that may raise.

    The state reached when an exception is raised is kept: assignments made
    before the [raise] are not undone. *)
Definition M (A : Type) : Type := Interpreter -> result A * Interpreter.

Definition ret {A} (a : A) : M A := fun s => (Ok a, s).

Definition bind {A B} (m : M A) (k : A -> M B) : M B :=
  fun s => match m s with
           | (Ok a, s') => k a s'
           | (Raise e, s') => (Raise e, s')
           end.

Definition raise {A} (e : exn) : M A := fun s => (Raise e, s).

Definition gets {A} (f : Interpreter -> A) : M A := fun s => (Ok (f s), s).

Definition modify (f : Interpreter -> Interpreter) : M unit :=
  fun s => (Ok tt, f s).

Definition lift {A} (r : result A) : M A := fun s => (r, s).

Notation "'let*' x ':=' m 'in' k" := (bind m (fun x => k))
  (at level 10, x pattern, m at level 100, k at level 200).
Notation "m '>>' k" := (bind m (fun _ => k))
  (at level 100, k at level 200, right associativity).

Definition when (b : bool) (m : M unit) : M unit := if b then m else ret tt.

(** [self.pos] where an integer is required (a slice bound or the start of
    [str.find]); a float there is a [TypeError]. *)
Definition int_pos : M Z :=
  fun s => match pos s with
           | Int p => (Ok p, s)
           | Inf => (Raise TypeError, s)
           end.

(** [self.pos += n] *)
Definition advance (n : Z) : M unit :=
  modify (fun s => set_pos (match pos s with
                            | Int p => Int (p + n)
                            | Inf => Inf
                            end) s).

(** [self.stack.pop()] *)
Definition stack_pop : M Z :=
  fun s => match list_pop (stack s) with
           | Some (x, l) => (Ok x, set_stack l s)
           | None => (Raise IndexError, s)
           end.

(** [self.stack.append(x)] *)
Definition stack_append (x : Z) : M unit :=
  modify (fun s => set_stack (stack s ++ [x]) s).

(** [print(text)]: standard output is taken to encode as UTF-8, as Python
    sets it up by default; a lone surrogate is what UTF-8 cannot encode,
    and a text that holds one raises [UnicodeEncodeError]. What reaches
    the console is not kept. *)
Definition console_print (text : str) : M unit :=
  if existsb is_surrogate text then raise UnicodeEncodeError else ret tt.

(** ** Decoding *)

(** A code table: the items of an (ordered) dict from tokens to names. *)
Definition imp_table := list (str * string).

(** [token in imp] *)
Definition imp_mem (token : str) (imp : imp_table) : bool :=
  existsb (fun kv => bool_decide (fst kv = token)) imp.

(** The [for key, value in imp.items()] loop: the first item whose key is
    the token, if any. *)
Fixpoint imp_lookup (token : str) (imp : imp_table) : option (str * string) :=
  match imp with
  | [] => None
  | (key, value) :: r =>
      if bool_decide (key = token) then Some (key, value)
      else imp_lookup token r
  end.

(** The token at the current offset: the one-character slice if it is a
    key of the table, the two-character slice otherwise. *)
Definition next_token (imp : imp_table) : M str :=
  let* p := int_pos in
  let* c := gets code in
  let token := slice c p (p + 1) in
  ret (if negb (imp_mem token imp) then slice c p (p + 2) else token).

Definition IMP : imp_table :=
  [ ([SPACE], "Stack"%string);
    ([TAB; SPACE], "Arithmetic"%string);
    ([TAB; TAB], "Heap"%string);
    ([TAB; LF], "IO"%string);
    ([LF], "FlowControl"%string) ].

(** Retrieves the next number in the sequence. *)
Definition num_parameter : M (Z * Z) :=
  let* c := gets code in
  let* p := int_pos in
  let index := find c LF p in
  if index =? p then raise SyntaxError
  else
    let* item := lift (WhitespaceInt.from_whitespace (slice c p index)) in
    ret (index, item).

(** Reads a label name; the name keeps its terminator. *)
Definition label_parameter : M (Z * str) :=
  let* c := gets code in
  let* p := int_pos in
  let index := find c LF p + 1 in
  let name := slice c p index in
  ret (index, name).

(** Gets the token for an IMP category. *)
Definition get_command (imp : imp_table) : M unit :=
  let* token := next_token imp in
  match imp_lookup token imp with
  | Some (key, value) =>
      modify (set_command value) >>
      advance (len key)
  | None => raise KeyError
  end.

(** [x == name] on names of instructions and commands. *)
Definition named (x : string) (name : string) : bool := String.eqb x name.

(** ** Stack manipulation *)

Module Stack.

Definition STACK_IMP : imp_table :=
  [ ([SPACE], "push_num"%string);
    ([TAB; SPACE], "duplicate_nth"%string);
    ([TAB; LF], "discard_n"%string);
    ([LF; SPACE], "duplicate_top"%string);
    ([LF; TAB], "swap"%string);
    ([LF; LF], "discard_top"%string) ].

Definition push_num (item : Z) : M unit := stack_append item.

Definition duplicate_nth (n : Z) : M unit :=
  let* size := gets stack_size in
  if size - 1 <? n then raise ValueError
  else if n <? 0 then raise IndexError
  else
    let* st := gets stack in
    let* item := lift (getitem st (- n - 1)) in
    stack_append item.

(** [for _ in range(n): self.stack.pop()] *)
Fixpoint pop_times (k : nat) : M unit :=
  match k with
  | O => ret tt
  | S k' => stack_pop >> pop_times k'
  end.

Definition discard_n (n : Z) : M unit :=
  let* size := gets stack_size in
  let n := if (size <=? n) || (n <? 0) then size - 1 else n in
  let* top := stack_pop in
  pop_times (Z.to_nat n) >>
  stack_append top.

Definition discard_top : M unit := stack_pop >> ret tt.

Definition swap : M unit :=
  let* a := stack_pop in
  let* b := stack_pop in
  stack_append a >>
  stack_append b.

(** Parses the next stack IMP. *)
Definition parse : M unit :=
  get_command STACK_IMP >>
  let* cmd := gets command in
  let* ld := gets loading in
  if named cmd "push_num" then
    let* (index, item) := num_parameter in
    when (negb ld) (push_num item) >>
    modify (set_pos (Int (index + 1)))
  else if named cmd "duplicate_nth" then
    let* (index, item) := num_parameter in
    when (negb ld) (duplicate_nth item) >>
    modify (set_pos (Int (index + 1)))
  else if named cmd "discard_n" then
    let* (index, item) := num_parameter in
    when (negb ld) (discard_n item) >>
    modify (set_pos (Int (index + 1)))
  else if named cmd "duplicate_top" then
    when (negb ld) (duplicate_nth 0)
  else if named cmd "swap" then
    when (negb ld) swap
  else if named cmd "discard_top" then
    when (negb ld) discard_top
  else ret tt.

End Stack.

(** ** Input and output *)

Module IO.

Definition IO_IMP : imp_table :=
  [ ([SPACE; SPACE], "output_char"%string);
    ([SPACE; TAB], "output_num"%string);
    ([TAB; SPACE], "input_char"%string);
    ([TAB; TAB], "input_num"%string) ].

Definition output_char : M unit :=
  let* v := stack_pop in
  let* c := lift (chr v) in
  modify (fun s => set_output (output s ++ [c]) s) >>
  console_print [62; 62; 62; 32; c].

Definition output_num : M unit :=
  let* num := stack_pop in
  modify (fun s => set_output (output s ++ str_of_int num) s).

(** [self.input.pop(0)] *)
Definition input_pop_front : M char :=
  fun s => match input s with
           | a :: r => (Ok a, set_input r s)
           | [] => (Raise IndexError, s)
           end.

Definition input_char : M unit :=
  let* a := input_pop_front in
  let* b := stack_pop in
  modify (fun s => set_heap (<[b := ord a]> (heap s)) s).

Definition input_num `{Builtins} : M unit :=
  let* b := stack_pop in
  let* inp := gets input in
  let* index := lift (list_index LF inp) in
  let num := take (Z.to_nat index) inp in
  modify (set_input (drop (Z.to_nat (index + 1)) inp)) >>
  match int_of_str num with
  | Some v => modify (fun s => set_heap (<[b := v]> (heap s)) s)
  | None => raise ValueError
  end.

(** Parses the next I/O IMP. *)
Definition parse `{Builtins} : M unit :=
  get_command IO_IMP >>
  let* ld := gets loading in
  if ld then ret tt
  else
    let* cmd := gets command in
    if named cmd "output_char" then output_char
    else if named cmd "output_num" then output_num
    else if named cmd "input_char" then input_char
    else if named cmd "input_num" then input_num
    else ret tt.

End IO.

(** ** Flow control *)

Module FlowControl.

Definition FLOW_IMP : imp_table :=
  [ ([SPACE; SPACE], "mark_label"%string);
    ([SPACE; TAB], "call_subroutine"%string);
    ([SPACE; LF], "jump"%string);
    ([TAB; SPACE], "jump_zero"%string);
    ([TAB; TAB], "jump_lt_zero"%string);
    ([TAB; LF], "exit_subroutine"%string);
    ([LF; LF], "exit"%string) ].

Definition exit : M unit := modify (set_pos Inf).

(** [self.pos + len(label)] *)
Definition pos_plus (p : number) (n : Z) : number :=
  match p with
  | Int z => Int (z + n)
  | Inf => Inf
  end.

Definition mark_label (label : str) : M unit :=
  let* ls := gets labels in
  match ls !! label with
  | Some _ => raise ValueError
  | None =>
      modify (fun s =>
                set_labels (<[label := pos_plus (pos s) (len label)]>
                              (labels s)) s)
  end.

(** [self.pos = self.labels[label]] *)
Definition jump (label : str) : M unit :=
  let* ls := gets labels in
  match ls !! label with
  | Some p => modify (set_pos p)
  | None => raise KeyError
  end.

Definition exit_subroutine : M unit :=
  fun s => match list_pop (return_positions s) with
           | Some (p, r) => (Ok tt, set_pos p (set_return_positions r s))
           | None => (Raise SyntaxError, s)
           end.

Definition call_subroutine (label : str) : M unit :=
  modify (fun s =>
            set_return_positions (return_positions s ++ [pos s]) s) >>
  let* ls := gets labels in
  match ls !! label with
  | Some p => modify (set_pos p)
  | None => raise KeyError
  end.

(** Parses the next flow control IMP. *)
Definition parse : M unit :=
  get_command FLOW_IMP >>
  let* cmd := gets command in
  let* ld := gets loading in
  if named cmd "exit" then
    when (negb ld) exit
  else if named cmd "mark_label" then
    let* (index, label) := label_parameter in
    when ld (mark_label label) >>
    modify (set_pos (Int index))
  else if named cmd "jump" then
    let* (index, label) := label_parameter in
    if negb ld then jump label
    else modify (set_pos (Int index))
  else if named cmd "jump_zero" then
    let* (index, label) := label_parameter in
    if negb ld then
      let* num := stack_pop in
      if num =? 0 then jump label
      else modify (set_pos (Int index))
    else modify (set_pos (Int index))
  else if named cmd "jump_lt_zero" then
    let* (index, label) := label_parameter in
    if negb ld then
      let* num := stack_pop in
      if num <? 0 then jump label
      else modify (set_pos (Int index))
    else modify (set_pos (Int index))
  else if named cmd "exit_subroutine" then
    when (negb ld) exit_subroutine
  else if named cmd "call_subroutine" then
    let* (index, label) := label_parameter in
    modify (set_pos (Int index)) >>
    when (negb ld) (call_subroutine label)
  else ret tt.

End FlowControl.

(** ** Arithmetic *)

Module Arithmetic.

Definition ARITHMETIC_IMP : imp_table :=
  [ ([SPACE; SPACE], "add"%string);
    ([SPACE; TAB], "sub"%string);
    ([SPACE; LF], "mul"%string);
    ([TAB; SPACE], "floordiv"%string);
    ([TAB; TAB], "mod"%string) ].

Definition add : M unit :=
  let* a := stack_pop in
  let* b := stack_pop in
  stack_append (b + a).

Definition sub : M unit :=
  let* a := stack_pop in
  let* b := stack_pop in
  stack_append (b - a).

Definition mul : M unit :=
  let* a := stack_pop in
  let* b := stack_pop in
  stack_append (b * a).

(** Python's [//] on integers rounds towards minus infinity, as [Z.div]
    does. *)
Definition floordiv : M unit :=
  let* a := stack_pop in
  let* b := stack_pop in
  if a =? 0 then raise ZeroDivisionError
  else stack_append (b / a).

(** Python's [%] on integers takes the sign of the divisor, as
    [Z.modulo] does. *)
Definition mod_ : M unit :=
  let* a := stack_pop in
  let* b := stack_pop in
  if a =? 0 then raise ZeroDivisionError
  else stack_append (b `mod` a).

(** Parses the next arithmetic IMP. *)
Definition parse : M unit :=
  get_command ARITHMETIC_IMP >>
  let* ld := gets loading in
  if ld then ret tt
  else
    let* cmd := gets command in
    if named cmd "add" then add
    else if named cmd "sub" then sub
    else if named cmd "mul" then mul
    else if named cmd "floordiv" then floordiv
    else if named cmd "mod" then mod_
    else ret tt.

End Arithmetic.

(** ** Heap access *)

Module Heap.

Definition HEAP_IMP : imp_table :=
  [ ([SPACE], "store"%string);
    ([TAB], "push"%string) ].

Definition store : M unit :=
  let* a := stack_pop in
  let* b := stack_pop in
  modify (fun s => set_heap (<[b := a]> (heap s)) s).

Definition push : M unit :=
  let* a := stack_pop in
  let* h := gets heap in
  match h !! a with
  | Some v => stack_append v
  | None => raise KeyError
  end.

(** Parses the next heap IMP. *)
Definition parse : M unit :=
  get_command HEAP_IMP >>
  let* ld := gets loading in
  if ld then ret tt
  else
    let* cmd := gets command in
    if named cmd "store" then store
    else if named cmd "push" then push
    else ret tt.

End Heap.

(** ** The main loop *)

(** How a call of [run] ends: it returns, it raises, or the model's fuel
    is used up before the Python loop has finished. *)
Inductive outcome :=
| Returned
| Raised (e : exn)
| OutOfFuel.

(** [getattr(self, self.instruction).parse(self)] *)
Definition dispatch `{Builtins} : M unit :=
  let* i := gets instruction in
  if named i "Stack" then Stack.parse
  else if named i "Arithmetic" then Arithmetic.parse
  else if named i "Heap" then Heap.parse
  else if named i "IO" then IO.parse
  else if named i "FlowControl" then FlowControl.parse
  else raise AttributeError.

(** The body of the [while] loop of [run]: one instruction. *)
Definition step `{Builtins} : M unit :=
  let* token := next_token IMP in
  match imp_lookup token IMP with
  | Some (key, value) =>
      modify (set_instruction value) >>
      advance (len key) >>
      dispatch
  | None => raise SyntaxError
  end.

(** [self.pos < self.code_length] *)
Definition in_program (s : Interpreter) : bool :=
  match pos s with
  | Int p => p <? code_length s
  | Inf => false
  end.

(** [while self.pos < self.code_length: ...], at most [fuel] iterations. *)
Fixpoint while_loop `{Builtins} (fuel : nat) (s : Interpreter)
  : outcome * Interpreter :=
  if in_program s then
    match fuel with
    | O => (OutOfFuel, s)
    | S fuel' =>
        match step s with
        | (Ok _, s') => while_loop fuel' s'
        | (Raise e, s') => (Raised e, s')
        end
    end
  else (Returned, s).

(** The tests that follow the loop once [self.loading] is false. *)
Definition epilogue (s : Interpreter) : outcome * Interpreter :=
  if negb (bool_decide (return_positions s = []))
     && negb (bool_decide (pos s = Inf))
  then (Raised SyntaxError, s)
  else if bool_decide (pos s = Int (code_length s))
  then (Raised RuntimeError, s)
  else (Returned, s).

(** Main loop of the program goes through each instruction.  The fuel
    bounds the iterations of each loop and the depth of the recursive
    call. *)
Fixpoint run `{Builtins} (fuel : nat) (s : Interpreter)
  : outcome * Interpreter :=
  if code_length s =? 0 then (Raised SyntaxError, s)
  else
    match while_loop fuel s with
    | (Returned, s') =>
        if loading s' then
          match fuel with
          | O => (OutOfFuel, s')
          | S fuel' => run fuel' (set_loading false (set_pos (Int 0) s'))
          end
        else epilogue s'
    | other => other
    end.

(** Removes extraneous characters from the code input. *)
Definition uncomment (s : str) : str :=
  filter (fun c => c = SPACE \/ c = TAB \/ c = LF) s.

Definition whitespace `{Builtins} (fuel : nat) (code : str) (inp : str)
  : outcome * str :=
  let (r, s) := run fuel (Interpreter_init (uncomment code) inp) in
  (r, output s).

(** An [int] that accepts no string, for programs that read no number. *)
Definition no_int : Builtins := {| int_of_str := fun _ => None |}.

(** ** Relations between the states before and after a computation *)

(** Everything but the decoder's own registers ([pos], [instruction],
    [command]) is the same in both states. *)
Definition same_machine (s s' : Interpreter) : Prop :=
  stack s' = stack s /\ heap s' = heap s /\ input s' = input s
  /\ output s' = output s /\ return_positions s' = return_positions s
  /\ labels s' = labels s /\ code s' = code s /\ inp s' = inp s
  /\ loading s' = loading s.

(** What the discovery phase may do to the machine: nothing to the data
    stack, the heap, the input, the output and the return stack. *)
Definition discovery_frame (s s' : Interpreter) : Prop :=
  stack s' = stack s /\ heap s' = heap s /\ input s' = input s
  /\ output s' = output s /\ return_positions s' = return_positions s
  /\ code s' = code s /\ loading s' = true.

(** The label table after one instruction of the discovery phase: as it
    was, or with one new entry put there by [mark_label]. *)
Definition labels_marked (s s' : Interpreter) : Prop :=
  labels s' = labels s
  \/ (command s' = "mark_label"%string
      /\ exists name v, labels s !! name = None
                        /\ labels s' = <[name := v]> (labels s)).

(** The phase and the program text are the same in both states. *)
Definition same_phase (s s' : Interpreter) : Prop :=
  loading s' = loading s /\ code s' = code s.

(** In the discovery phase, nothing but the decoder's registers moves. *)
Definition quiet (s s' : Interpreter) : Prop :=
  loading s = true -> same_machine s s'.

(** Every run of [m] relates the state it starts from to the state it
    ends in, whether it returns or raises. *)
Definition preserves {A} (R : Interpreter -> Interpreter -> Prop) (m : M A)
  : Prop :=
  forall s r s', m s = (r, s') -> R s s'.

(** ** Programs and states used as examples *)

Definition stack_12 : Interpreter := set_stack [1; 2] (Interpreter_init [] []).

Definition stack_1234 : Interpreter :=
  set_stack [1; 2; 3; 4] (Interpreter_init [] []).

Definition stack_7_m2 : Interpreter :=
  set_stack [7; -2] (Interpreter_init [] []).
Definition stack_7_0 : Interpreter :=
  set_stack [7; 0] (Interpreter_init [] []).


Definition input_AB : Interpreter := Interpreter_init [] [65; 66].

(** [push] with the literal body left out, followed by [exit]. *)
Definition push_empty_literal : str := [SPACE; SPACE; LF; LF; LF; LF].

(** The instruction [exit], as it stands in the program text. *)
Definition EXIT : str := [LF; LF; LF].

(** A subroutine that exits the program: call the empty label, mark it,
    exit. *)
Definition call_then_exit : str :=
  [LF; SPACE; TAB; LF] ++ [LF; SPACE; SPACE; LF] ++ EXIT.

(** The state in which the call above has been made. *)
Definition inside_call : Interpreter :=
  set_return_positions [Int 4]
    (set_pos (Int 8) (set_loading false (Interpreter_init call_then_exit []))).

(** [exit] followed by an I/O prefix with no command after it. *)
Definition exit_then_garbage : str := EXIT ++ [TAB; LF; LF].

(** [jump] to a label that has no terminator. *)
Definition unterminated_jump : str := [LF; SPACE; LF].

(** [push] of a number that has no terminator. *)
Definition unterminated_push : str := [SPACE; SPACE; SPACE; TAB; TAB].

(** The states the discovery loop is in after the first instruction of the
    two programs: back at offset 0. *)
Definition jump_again : Interpreter :=
  set_pos (Int 0)
    (set_command "jump"
       (set_instruction "FlowControl" (Interpreter_init unterminated_jump []))).

Definition push_again : Interpreter :=
  set_pos (Int 0)
    (set_command "push_num"
       (set_instruction "Stack" (Interpreter_init unterminated_push []))).

(** Mark the empty label, push 1, exit. *)
Definition mark_push_exit : str :=
  [LF; SPACE; SPACE; LF] ++ [SPACE; SPACE; SPACE; TAB; LF] ++ EXIT.

Definition discovery_start : Interpreter := Interpreter_init mark_push_exit [].

(** Push 0, output it as a number, exit. *)
Definition print_zero : str :=
  [SPACE; SPACE; SPACE; LF] ++ [TAB; LF; SPACE; TAB] ++ [LF; LF; LF].

(** Push 3, push 4, add, output the sum as a number, exit. *)
Definition print_sum : str :=
  [SPACE; SPACE; SPACE; TAB; TAB; LF]
  ++ [SPACE; SPACE; SPACE; TAB; SPACE; SPACE; LF]
  ++ [TAB; SPACE; SPACE; SPACE] ++ [TAB; LF; SPACE; TAB] ++ [LF; LF; LF].

(** ** Predicates on program text *)

(** The three characters a program is made of. *)
Definition significant (c : char) : Prop := c = SPACE \/ c = TAB \/ c = LF.

(** The two characters a literal body is made of. *)
Definition blank (c : char) : Prop := c = SPACE \/ c = TAB.

(** A program in a commented host text, and the same program bare. *)
Definition commented_text : str := [65; SPACE; 66; TAB; LF; 67].
Definition bare_text : str := [SPACE; TAB; LF].

(** [push 5] as it stands in a program, from offset 2 on: the literal
    [+101] and its terminator. *)
Definition push_five : Interpreter :=
  set_pos (Int 2)
    (Interpreter_init [SPACE; SPACE; SPACE; TAB; SPACE; TAB; LF; LF; LF; LF] []).

(** A label named space-tab, read from offset 3 on. *)
Definition label_at_3 : Interpreter :=
  set_pos (Int 3)
    (Interpreter_init [LF; SPACE; SPACE; SPACE; TAB; LF; LF; LF; LF] []).

(** A state about to read a stack command, at offset 1 of a program that
    holds [swap] there. *)
Definition at_swap : Interpreter :=
  set_pos (Int 1) (Interpreter_init [SPACE; LF; TAB; LF; LF; LF] []).

(** A state whose offset is the end of its program. *)
Definition at_end : Interpreter :=
  set_pos (Int 1) (Interpreter_init [SPACE] []).

Definition stack_123 : Interpreter :=
  set_stack [1; 2; 3] (Interpreter_init [] []).

Definition stack_7 : Interpreter := set_stack [7] (Interpreter_init [] []).

(** An address 10 under a value 42, over an empty heap. *)
Definition stack_10_42 : Interpreter :=
  set_stack [10; 42] (Interpreter_init [] []).

(** An address 10 on the stack and the input [A] then [B]. *)
Definition stack_10_input_AB : Interpreter :=
  set_stack [10] (Interpreter_init [] [65; 66]).

(** An address 10 on the stack and the input [12], line-feed, [A]. *)
Definition stack_10_input_12 : Interpreter :=
  set_stack [10] (Interpreter_init [] [49; 50; LF; 65]).

(** An [int] that reads the text [12] and nothing else. *)
Definition int_12 : Builtins :=
  {| int_of_str := fun t => if bool_decide (t = [49; 50]) then Some 12 else None |}.

(** An address 10 on the stack and no input. *)
Definition stack_10 : Interpreter := set_stack [10] (Interpreter_init [] []).

(** Mark the label named space, then exit; the state is the initial one. *)
Definition mark_space : Interpreter :=
  Interpreter_init ([LF; SPACE; SPACE] ++ [SPACE] ++ LF :: EXIT) [].

(** A conditional jump to the label named space, in the execution phase,
    with 0 on the stack and the label defined at offset 5. *)
Definition jump_zero_taken : Interpreter :=
  set_labels (<[[SPACE; LF] := Int 5]> ∅)
    (set_stack [0]
       (set_loading false
          (Interpreter_init ([LF; TAB; SPACE] ++ [SPACE] ++ LF :: EXIT) []))).

(** The same jump with 3 on the stack and no label defined. *)
Definition jump_zero_skipped : Interpreter :=
  set_stack [3]
    (set_loading false
       (Interpreter_init ([LF; TAB; SPACE] ++ [SPACE] ++ LF :: EXIT) [])).

(** A call of the label named space, in the execution phase, the label
    defined at offset 5. *)
Definition call_space : Interpreter :=
  set_labels (<[[SPACE; LF] := Int 5]> ∅)
    (set_loading false
       (Interpreter_init ([LF; SPACE; TAB] ++ [SPACE] ++ LF :: EXIT) [])).

(** ** Soundness of the control state *)

(** An offset recorded for later use: an integer within the program text
    [c], its end included. *)
Definition fin_ok (c : str) (v : number) : Prop :=
  match v with
  | Int z => 0 <= z <= len c
  | Inf => False
  end.

(** The control state is sound: the offset lies within the program or is
    the marker left by [exit], and every label and every return address
    is an offset within the program. *)
Definition control_ok (s : Interpreter) : Prop :=
  match pos s with
  | Int p => 0 <= p <= len (code s)
  | Inf => command s = "exit"%string
  end
  /\ (forall k v, labels s !! k = Some v -> fin_ok (code s) v)
  /\ Forall (fin_ok (code s)) (return_positions s).

(** The control state and the decoder's command are the same in both
    states. *)
Definition same_control (s s' : Interpreter) : Prop :=
  pos s' = pos s /\ command s' = command s /\ labels s' = labels s
  /\ return_positions s' = return_positions s /\ code s' = code s.

(** [wp m Q s]: the result of running [m] from [s], and the state it
    ends in, satisfy [Q]. *)
Definition wp {A} (m : M A) (Q : result A -> Interpreter -> Prop)
  (s : Interpreter) : Prop :=
  Q (fst (m s)) (snd (m s)).


(** [push 1] and nothing after it, entered in the execution phase. *)
Definition push_without_exit : Interpreter :=
  set_loading false (Interpreter_init [SPACE; SPACE; SPACE; TAB; LF] []).

(** ** More relations between states *)

(** The output has only been extended and the input only consumed from
    its front. *)
Definition io_monotone (s s' : Interpreter) : Prop :=
  output s `prefix_of` output s' /\ input s' `suffix_of` input s.

(** In the execution phase the label table is left as it is. *)
Definition labels_frozen (s s' : Interpreter) : Prop :=
  loading s = false -> labels s' = labels s /\ loading s' = false.

(** A host text with no significant character in it. *)
Definition only_comments : str := [72; 105; 33].

(** A program that ends in a lone tab after [push 1], read from the
    offset of that tab. *)
Definition dangling_tab : Interpreter :=
  set_pos (Int 5) (Interpreter_init [SPACE; SPACE; SPACE; TAB; LF; TAB] []).




(** * Properties *)

(** ** Two complete runs *)

Example print_zero_output :
  @whitespace no_int 10 print_zero [] = (Returned, [48]).
Proof. vm_compute. reflexivity. Qed.

Example print_sum_output :
  @whitespace no_int 10 print_sum [] = (Returned, [55]).
Proof. vm_compute. reflexivity. Qed.

(** ** Lists and the monad *)

Lemma list_pop_snoc {A} (l : list A) (x : A) : list_pop (l ++ [x]) = Some (x, l).
Proof. unfold list_pop. rewrite last_snoc. by rewrite removelast_last. Qed.

Lemma list_pop_nil {A} : list_pop (@nil A) = None.
Proof. reflexivity. Qed.

Lemma list_pop_Some {A} (l l' : list A) (x : A) :
  list_pop l = Some (x, l') -> l = l' ++ [x].
Proof.
  destruct l as [|y l0] using rev_ind.
  - discriminate.
  - rewrite list_pop_snoc. congruence.
Qed.

Lemma list_pop_None {A} (l : list A) : list_pop l = None -> l = [].
Proof.
  destruct l as [|y l0] using rev_ind; [done|].
  rewrite list_pop_snoc. discriminate.
Qed.

Lemma bind_ok {A B} (m : M A) (k : A -> M B) s a s' :
  m s = (Ok a, s') -> bind m k s = k a s'.
Proof. unfold bind. by intros ->. Qed.

Lemma bind_raise {A B} (m : M A) (k : A -> M B) s e s' :
  m s = (Raise e, s') -> bind m k s = (Raise e, s').
Proof. unfold bind. by intros ->. Qed.

Lemma stack_pop_snoc s l x :
  stack s = l ++ [x] -> stack_pop s = (Ok x, set_stack l s).
Proof. unfold stack_pop. intros ->. by rewrite list_pop_snoc. Qed.

Lemma stack_pop_nil s : stack s = [] -> stack_pop s = (Raise IndexError, s).
Proof. unfold stack_pop. by intros ->. Qed.

Lemma set_stack_twice l l' s : set_stack l (set_stack l' s) = set_stack l s.
Proof. reflexivity. Qed.

Lemma set_stack_same s : set_stack (stack s) s = s.
Proof. by destruct s. Qed.

Lemma stack_append_eq x s : stack_append x s = (Ok tt, set_stack (stack s ++ [x]) s).
Proof. reflexivity. Qed.

(** Popping two operands, the top one first. *)
Lemma pop_two s rest b a {B} (k : Z -> Z -> M B) :
  stack s = rest ++ [b; a] ->
  bind stack_pop (fun x => bind stack_pop (fun y => k x y)) s
  = k a b (set_stack rest s).
Proof.
  intros Hs.
  rewrite (bind_ok _ _ s a (set_stack (rest ++ [b]) s)).
  - rewrite (bind_ok _ _ _ b (set_stack rest s)); [done|].
    exact (stack_pop_snoc (set_stack (rest ++ [b]) s) rest b eq_refl).
  - apply stack_pop_snoc. rewrite Hs. by rewrite <- app_assoc.
Qed.

(** ** Stack family *)

Lemma swap_two s rest b a :
  stack s = rest ++ [b; a] ->
  Stack.swap s = (Ok tt, set_stack (rest ++ [a; b]) s).
Proof.
  intros Hs. unfold Stack.swap. rewrite (pop_two s rest b a) by done.
  unfold bind. rewrite !stack_append_eq. simpl.
  by rewrite <- app_assoc.
Qed.

(** C4, as the code has it: on a stack with at least two elements [swap]
    pops [a] (the top) then [b] (the second) and pushes [a] then [b], so
    the two top elements change places, [b] ending on top of [a] above an
    untouched rest; on a stack with fewer than two elements it fails with
    a stack underflow ([IndexError]), after removing the single element if
    there was one. *)
Theorem swap_exchanges_top_two (s : Interpreter) :
  (forall rest b a, stack s = rest ++ [b; a] ->
     Stack.swap s = (Ok tt, set_stack (rest ++ [a; b]) s))
  /\ (stack s = [] -> Stack.swap s = (Raise IndexError, s))
  /\ (forall a, stack s = [a] ->
        Stack.swap s = (Raise IndexError, set_stack [] s)).
Proof.
  split; [|split].
  - intros rest b a Hs. by apply swap_two.
  - intros Hs. unfold Stack.swap. apply bind_raise. by apply stack_pop_nil.
  - intros a Hs. unfold Stack.swap.
    rewrite (bind_ok _ _ s a (set_stack [] s)).
    + apply bind_raise. by apply stack_pop_nil.
    + by apply (stack_pop_snoc s []).
Qed.

Lemma swap_exchanges_top_two_witness :
  Stack.swap stack_12 = (Ok tt, set_stack [2; 1] stack_12).
Proof.
  apply (proj1 (swap_exchanges_top_two stack_12) [] 1 2). reflexivity.
Defined.

(** C4, as stated, fails: after [swap] on the stack [1; 2] (2 on top) the
    stack is [2; 1], not the original order. *)
Lemma swap_is_not_a_noop :
  exists s', Stack.swap stack_12 = (Ok tt, s') /\ stack s' = [2; 1]
             /\ stack s' <> stack stack_12.
Proof. eexists. split; [reflexivity|]. split; [reflexivity|discriminate]. Qed.

Lemma pop_times_app gone : forall s keep,
  stack s = keep ++ gone ->
  Stack.pop_times (length gone) s = (Ok tt, set_stack keep s).
Proof.
  induction gone as [|x g IH] using rev_ind; intros s keep Hs.
  - simpl. rewrite app_nil_r in Hs. rewrite <- Hs. by rewrite set_stack_same.
  - rewrite length_app, Nat.add_1_r. simpl.
    rewrite (bind_ok _ _ s x (set_stack (keep ++ g) s)).
    + exact (IH (set_stack (keep ++ g) s) keep eq_refl).
    + apply stack_pop_snoc. by rewrite Hs, app_assoc.
Qed.

(** What [discard_n] does once the number of pops is known. *)
Lemma discard_n_pops s keep gone top n :
  stack s = keep ++ gone ++ [top] ->
  Z.to_nat (if (stack_size s <=? n) || (n <? 0) then stack_size s - 1 else n)
  = length gone ->
  Stack.discard_n n s = (Ok tt, set_stack (keep ++ [top]) s).
Proof.
  intros Hs Hn. unfold Stack.discard_n.
  rewrite (bind_ok _ _ s (stack_size s) s) by reflexivity.
  rewrite (bind_ok _ _ s top (set_stack (keep ++ gone) s)).
  2: { apply stack_pop_snoc. by rewrite Hs, app_assoc. }
  rewrite Hn.
  rewrite (bind_ok _ _ _ tt (set_stack keep s)).
  - reflexivity.
  - exact (pop_times_app gone (set_stack (keep ++ gone) s) keep eq_refl).
Qed.

(** C8: on a non-empty stack, [discard_n n] with [n] negative or at least
    the size left after popping the top leaves exactly one element, the
    prior top; for [0 <= n] below that size it removes exactly the [n]
    elements just below the top and keeps the top on top. *)
Theorem discard_n_keeps_top (s : Interpreter) (rest : list Z) (top n : Z)
  (Hs : stack s = rest ++ [top]) :
  (n < 0 \/ len rest <= n ->
     Stack.discard_n n s = (Ok tt, set_stack [top] s))
  /\ (0 <= n < len rest ->
      exists keep gone,
        rest = keep ++ gone /\ len gone = n /\
        Stack.discard_n n s = (Ok tt, set_stack (keep ++ [top]) s)).
Proof.
  assert (Hsize : stack_size s = len rest + 1).
  { unfold stack_size, len. rewrite Hs, length_app. simpl. lia. }
  split.
  - intros Hn. apply (discard_n_pops s [] rest top n); [done|].
    rewrite Hsize. unfold len in *.
    destruct (Z.leb_spec (Z.of_nat (length rest) + 1) n);
      destruct (Z.ltb_spec n 0); simpl; lia.
  - intros Hn.
    exists (take (length rest - Z.to_nat n)%nat rest),
           (drop (length rest - Z.to_nat n)%nat rest).
    assert (Hlen : length (drop (length rest - Z.to_nat n)%nat rest)
                   = Z.to_nat n).
    { rewrite length_drop. unfold len in Hn. lia. }
    split; [by rewrite take_drop|]. split.
    + unfold len. rewrite Hlen. lia.
    + apply discard_n_pops with (gone := drop (length rest - Z.to_nat n)%nat rest).
      * by rewrite app_assoc, take_drop.
      * rewrite Hsize, Hlen. unfold len in *.
        destruct (Z.leb_spec (Z.of_nat (length rest) + 1) n);
          destruct (Z.ltb_spec n 0); simpl; lia.
Qed.

Lemma discard_n_keeps_top_witness :
  Stack.discard_n 7 stack_1234 = (Ok tt, set_stack [4] stack_1234)
  /\ Stack.discard_n (-1) stack_1234 = (Ok tt, set_stack [4] stack_1234)
  /\ exists keep gone,
       [1; 2; 3] = keep ++ gone /\ len gone = 2 /\
       Stack.discard_n 2 stack_1234 = (Ok tt, set_stack (keep ++ [4]) stack_1234).
Proof.
  split; [|split].
  - apply (proj1 (discard_n_keeps_top stack_1234 [1; 2; 3] 4 7 eq_refl)).
    right. vm_compute. discriminate.
  - apply (proj1 (discard_n_keeps_top stack_1234 [1; 2; 3] 4 (-1) eq_refl)).
    left. lia.
  - apply (proj2 (discard_n_keeps_top stack_1234 [1; 2; 3] 4 2 eq_refl)).
    split; [lia | reflexivity].
Defined.

(** ** Arithmetic family *)

(** C7: for a non-zero divisor [a] on top of [b], [floordiv] and [mod]
    push a quotient and a remainder with [q * a + r = b], the remainder
    zero or of the sign of [a]; with [a = 0] both raise
    [ZeroDivisionError] and push nothing, the two operands being gone. *)
Theorem floordiv_mod_identity (s : Interpreter) (rest : list Z) (b a : Z)
  (Hs : stack s = rest ++ [b; a]) :
  (a <> 0 ->
     exists q r,
       Arithmetic.floordiv s = (Ok tt, set_stack (rest ++ [q]) s)
       /\ Arithmetic.mod_ s = (Ok tt, set_stack (rest ++ [r]) s)
       /\ q * a + r = b
       /\ (0 < a -> 0 <= r < a) /\ (a < 0 -> a < r <= 0))
  /\ (a = 0 ->
      Arithmetic.floordiv s = (Raise ZeroDivisionError, set_stack rest s)
      /\ Arithmetic.mod_ s = (Raise ZeroDivisionError, set_stack rest s)).
Proof.
  unfold Arithmetic.floordiv, Arithmetic.mod_.
  rewrite !(pop_two s rest b a) by done.
  split.
  - intros Ha. exists (b / a), (b `mod` a).
    apply Z.eqb_neq in Ha as Ha'. rewrite Ha'.
    rewrite !stack_append_eq. simpl.
    split; [done|]. split; [done|]. split.
    + pose proof (Z.div_mod b a Ha). lia.
    + split; intros Hsign.
      * by apply Z.mod_pos_bound.
      * by apply Z.mod_neg_bound.
  - intros ->. by rewrite Z.eqb_refl.
Qed.

Lemma floordiv_mod_identity_witness :
  (exists q r,
     Arithmetic.floordiv stack_7_m2 = (Ok tt, set_stack ([] ++ [q]) stack_7_m2)
     /\ Arithmetic.mod_ stack_7_m2 = (Ok tt, set_stack ([] ++ [r]) stack_7_m2)
     /\ q * (-2) + r = 7
     /\ (0 < -2 -> 0 <= r < -2) /\ (-2 < 0 -> -2 < r <= 0))
  /\ Arithmetic.floordiv stack_7_0 = (Raise ZeroDivisionError, set_stack [] stack_7_0)
  /\ Arithmetic.mod_ stack_7_0 = (Raise ZeroDivisionError, set_stack [] stack_7_0).
Proof.
  split.
  - apply (proj1 (floordiv_mod_identity stack_7_m2 [] 7 (-2) eq_refl)). lia.
  - apply (proj2 (floordiv_mod_identity stack_7_0 [] 7 0 eq_refl)). reflexivity.
Defined.

(** ** Input and output family *)








(** C10: [input_char] takes the front character off the input before it
    pops the address, so with some input left and an empty stack it fails
    with a stack underflow and the front character is gone. *)
Theorem input_char_consumes_before_pop (s : Interpreter) (a : char)
  (rest : list char) (Hin : input s = a :: rest) (Hst : stack s = []) :
  IO.input_char s = (Raise IndexError, set_input rest s)
  /\ input (snd (IO.input_char s)) = rest.
Proof.
  assert (H : IO.input_char s = (Raise IndexError, set_input rest s)).
  { unfold IO.input_char.
    rewrite (bind_ok _ _ s a (set_input rest s)).
    - apply bind_raise. by apply stack_pop_nil.
    - unfold IO.input_pop_front. by rewrite Hin. }
  by rewrite H.
Qed.

Lemma input_char_consumes_before_pop_witness :
  IO.input_char input_AB = (Raise IndexError, set_input [66] input_AB)
  /\ input (snd (IO.input_char input_AB)) = [66].
Proof.
  apply (input_char_consumes_before_pop input_AB 65 [66]); reflexivity.
Defined.

(** ** Slices and searches in the program text *)

Lemma len_app {A} (l1 l2 : list A) : len (l1 ++ l2) = len l1 + len l2.
Proof. unfold len. rewrite length_app. lia. Qed.

Lemma len_nonneg {A} (l : list A) : 0 <= len l.
Proof. unfold len. lia. Qed.

Lemma clamp_inside n i : 0 <= i <= n -> clamp n i = i.
Proof. intros H. unfold clamp. destruct (Z.ltb_spec i 0); lia. Qed.

(** The slice that covers a known segment of the text. *)
Lemma slice_segment {A} (c pre l post : list A) (p q : Z) :
  c = pre ++ l ++ post -> p = len pre -> q = p + len l ->
  slice c p q = l.
Proof.
  intros -> -> ->. unfold slice.
  pose proof (len_nonneg pre). pose proof (len_nonneg l).
  pose proof (len_nonneg post).
  rewrite !clamp_inside by (rewrite !len_app; lia).
  replace (len pre + len l - len pre) with (len l) by lia.
  unfold len. rewrite !Nat2Z.id.
  rewrite drop_app_length. by rewrite take_app_length.
Qed.

Lemma index_from_skip (c : char) (body : str) : forall (rest : str) (k : Z),
  c ∉ body -> index_from c (body ++ c :: rest) k = k + len body.
Proof.
  induction body as [|x body IH]; intros rest k Hnot; simpl.
  - rewrite Z.eqb_refl. unfold len. simpl. lia.
  - apply not_elem_of_cons in Hnot as [Hx Hbody].
    destruct (Z.eqb_spec x c) as [->|_]; [done|].
    rewrite IH by done. unfold len. simpl length. lia.
Qed.

Lemma index_from_absent (c : char) (l : str) : forall k,
  c ∉ l -> index_from c l k = -1.
Proof.
  induction l as [|x l IH]; intros k Hnot; simpl; [done|].
  apply not_elem_of_cons in Hnot as [Hx Hl].
  destruct (Z.eqb_spec x c) as [->|_]; [done|]. by apply IH.
Qed.

(** The terminator found from the start of a literal. *)
Lemma find_terminator (c pre body post : str) :
  c = pre ++ body ++ LF :: post -> LF ∉ body ->
  find c LF (len pre) = len pre + len body.
Proof.
  intros -> Hnot. unfold find.
  pose proof (len_nonneg pre). pose proof (len_nonneg (body ++ LF :: post)).
  rewrite clamp_inside by (rewrite len_app; lia).
  replace (Z.to_nat (len pre)) with (length pre) by (unfold len; lia).
  rewrite drop_app_length.
  by apply index_from_skip.
Qed.

(** No terminator from the start of a literal on: [find] answers [-1]. *)
Lemma find_no_terminator (c pre tail : str) :
  c = pre ++ tail -> LF ∉ tail -> find c LF (len pre) = -1.
Proof.
  intros -> Hnot. unfold find.
  pose proof (len_nonneg pre). pose proof (len_nonneg tail).
  rewrite clamp_inside by (rewrite len_app; lia).
  replace (Z.to_nat (len pre)) with (length pre) by (unfold len; lia).
  rewrite drop_app_length.
  by apply index_from_absent.
Qed.

(** ** Literals *)

(** C3, as the code has it: a numeric literal whose body is empty, the
    terminator being the first character at the start offset, is refused
    with a [SyntaxError] and gives no value; the value 0 comes from a body
    of exactly one character before the terminator. *)
Theorem num_parameter_empty_body (s : Interpreter) (pre post : str)
  (Hpos : pos s = Int (len pre)) :
  (code s = pre ++ LF :: post ->
     num_parameter s = (Raise SyntaxError, s))
  /\ (forall c, c <> LF -> code s = pre ++ c :: LF :: post ->
        num_parameter s = (Ok (len pre + 1, 0), s)).
Proof.
  split.
  - intros Hc. unfold num_parameter, bind, gets, int_pos. rewrite Hpos.
    rewrite (find_terminator (code s) pre [] post) by (done || apply not_elem_of_nil).
    change (len []) with 0. rewrite Z.add_0_r. by rewrite Z.eqb_refl.
  - intros c Hne Hc. unfold num_parameter, bind, gets, int_pos. rewrite Hpos.
    rewrite (find_terminator (code s) pre [c] post).
    + change (len [c]) with 1.
      destruct (Z.eqb_spec (len pre + 1) (len pre)) as [Heq|_]; [lia|].
      rewrite (slice_segment (code s) pre [c] (LF :: post)
                 (len pre) (len pre + 1) Hc eq_refl eq_refl).
      reflexivity.
    + done.
    + apply not_elem_of_cons. split; [done | apply not_elem_of_nil].
Qed.

Lemma num_parameter_empty_body_witness :
  num_parameter (set_pos (Int 2) (Interpreter_init push_empty_literal []))
  = (Raise SyntaxError, set_pos (Int 2) (Interpreter_init push_empty_literal [])).
Proof.
  apply (proj1 (num_parameter_empty_body
                  (set_pos (Int 2) (Interpreter_init push_empty_literal []))
                  [SPACE; SPACE] [LF; LF; LF] eq_refl)).
  reflexivity.
Defined.

(** C3, as stated, fails: the empty body at offset 2 of
    [push_empty_literal] is not decoded to 0 but raises, and the run of
    that program ends with the same [SyntaxError]. *)
Lemma empty_literal_is_refused :
  fst (num_parameter (set_pos (Int 2) (Interpreter_init push_empty_literal [])))
  = Raise SyntaxError
  /\ fst (@run no_int 10 (Interpreter_init push_empty_literal []))
     = Raised SyntaxError.
Proof. split; vm_compute; reflexivity. Qed.

(** ** Decoding one instruction *)

Lemma next_token_eq imp s p t1 t2 :
  pos s = Int p ->
  slice (code s) p (p + 1) = t1 -> slice (code s) p (p + 2) = t2 ->
  next_token imp s = (Ok (if negb (imp_mem t1 imp) then t2 else t1), s).
Proof.
  intros Hp <- <-. unfold next_token, bind, int_pos, gets, ret.
  by rewrite Hp.
Qed.

Lemma get_command_eq imp s p t1 t2 key value :
  pos s = Int p ->
  slice (code s) p (p + 1) = t1 -> slice (code s) p (p + 2) = t2 ->
  imp_lookup (if negb (imp_mem t1 imp) then t2 else t1) imp
  = Some (key, value) ->
  get_command imp s
  = (Ok tt, set_pos (Int (p + len key)) (set_command value s)).
Proof.
  intros Hp H1 H2 Hl. unfold get_command.
  rewrite (bind_ok _ _ _ _ _ (next_token_eq imp s p t1 t2 Hp H1 H2)).
  cbv beta. rewrite Hl. unfold advance, bind, modify.
  cbn [pos set_command set_instruction]. by rewrite Hp.
Qed.

Lemma step_eq `{Builtins} s p t1 t2 key value :
  pos s = Int p ->
  slice (code s) p (p + 1) = t1 -> slice (code s) p (p + 2) = t2 ->
  imp_lookup (if negb (imp_mem t1 IMP) then t2 else t1) IMP
  = Some (key, value) ->
  step s = dispatch (set_pos (Int (p + len key)) (set_instruction value s)).
Proof.
  intros Hp H1 H2 Hl. unfold step.
  rewrite (bind_ok _ _ _ _ _ (next_token_eq IMP s p t1 t2 Hp H1 H2)).
  cbv beta. rewrite Hl. unfold advance, bind, modify.
  cbn [pos set_command set_instruction]. by rewrite Hp.
Qed.

Lemma dispatch_flow `{Builtins} s :
  instruction s = "FlowControl"%string -> dispatch s = FlowControl.parse s.
Proof. unfold dispatch, bind, gets. by intros ->. Qed.

(** Decoding of [exit] up to the handler, in either phase. *)
Lemma step_exit `{Builtins} s pre post :
  code s = pre ++ EXIT ++ post -> pos s = Int (len pre) ->
  step s
  = when (negb (loading s)) FlowControl.exit
      (set_pos (Int (len pre + 3))
         (set_command "exit" (set_instruction "FlowControl" s))).
Proof.
  intros Hc Hp.
  assert (Hc1 : code s = (pre ++ [LF]) ++ [LF; LF] ++ post)
    by (rewrite Hc; by rewrite <- app_assoc).
  rewrite (step_eq s (len pre) [LF] (slice (code s) (len pre) (len pre + 2))
             [LF] "FlowControl" Hp).
  - rewrite dispatch_flow by reflexivity.
    unfold FlowControl.parse.
    rewrite (bind_ok _ _ _ tt
               (set_pos (Int (len pre + 1 + 2))
                  (set_command "exit"
                     (set_pos (Int (len pre + 1))
                        (set_instruction "FlowControl" s))))).
    + replace (len pre + 1 + 2) with (len pre + 3) by lia. reflexivity.
    + apply (get_command_eq _ _ (len pre + 1) [LF] [LF; LF] [LF; LF]).
      * reflexivity.
      * apply (slice_segment _ (pre ++ [LF]) [LF] ([LF] ++ post)).
        -- simpl. rewrite Hc. by rewrite <- app_assoc.
        -- by rewrite len_app.
        -- reflexivity.
      * apply (slice_segment _ (pre ++ [LF]) [LF; LF] post).
        -- simpl. rewrite Hc. by rewrite <- app_assoc.
        -- by rewrite len_app.
        -- reflexivity.
      * reflexivity.
  - apply (slice_segment _ pre [LF] ([LF; LF] ++ post)); [by rewrite Hc|done..].
  - reflexivity.
  - reflexivity.
Qed.

(** ** The end of a run *)

Lemma while_loop_done `{Builtins} fuel s :
  in_program s = false -> while_loop fuel s = (Returned, s).
Proof. intros Hs. destruct fuel; simpl; by rewrite Hs. Qed.

Lemma while_loop_step `{Builtins} fuel s s' :
  in_program s = true -> step s = (Ok tt, s') ->
  while_loop (S fuel) s = while_loop fuel s'.
Proof. intros Hs Hstep. simpl. by rewrite Hs, Hstep. Qed.

Lemma epilogue_exit s : pos s = Inf -> epilogue s = (Returned, s).
Proof.
  intros Hp. unfold epilogue. rewrite Hp.
  rewrite (bool_decide_eq_true_2 (Inf = Inf)) by done.
  rewrite andb_false_r.
  by rewrite (bool_decide_eq_false_2 (Inf = Int _)).
Qed.

Lemma epilogue_unbalanced s :
  return_positions s <> [] -> pos s <> Inf ->
  epilogue s = (Raised SyntaxError, s).
Proof.
  intros Hr Hp. unfold epilogue.
  rewrite (bool_decide_eq_false_2 (return_positions s = [])) by done.
  by rewrite (bool_decide_eq_false_2 (pos s = Inf)).
Qed.

Lemma epilogue_SyntaxError s s' :
  epilogue s = (Raised SyntaxError, s') ->
  return_positions s <> [] /\ pos s <> Inf.
Proof.
  unfold epilogue. repeat case_bool_decide; simpl; intros Heq;
    try discriminate; done.
Qed.

Lemma in_program_at s pre mid post :
  code s = pre ++ mid ++ post -> mid <> [] -> pos s = Int (len pre) ->
  in_program s = true /\ code_length s <> 0.
Proof.
  intros Hc Hmid Hp. unfold in_program, code_length. rewrite Hp, Hc.
  rewrite !len_app.
  pose proof (len_nonneg pre). pose proof (len_nonneg post).
  assert (0 < len mid) by (destruct mid; [done | unfold len; simpl; lia]).
  split; [apply Z.ltb_lt|]; lia.
Qed.

(** [exit] met in the execution phase: the run returns. *)
Lemma run_exit `{Builtins} s pre post fuel :
  loading s = false ->
  code s = pre ++ EXIT ++ post -> pos s = Int (len pre) ->
  run (S fuel) s
  = (Returned, set_pos Inf (set_command "exit" (set_instruction "FlowControl" s))).
Proof.
  intros Hl Hc Hp.
  destruct (in_program_at s pre EXIT post Hc ltac:(done) Hp) as [Hin Hlen].
  assert (Hstep : step s = (Ok tt, set_pos Inf (set_command "exit"
                                       (set_instruction "FlowControl" s)))).
  { rewrite (step_exit s pre post Hc Hp). by rewrite Hl. }
  cbn [run]. apply Z.eqb_neq in Hlen. rewrite Hlen.
  rewrite (while_loop_step fuel _ _ Hin Hstep).
  rewrite while_loop_done by reflexivity.
  cbn [loading set_pos set_command set_instruction]. rewrite Hl.
  by apply epilogue_exit.
Qed.

(** C1, as the code has it: a run whose execution loop ends through
    [exit] returns whatever the Return Stack holds, and leaves it as it
    is; the test made after the loop raises its error exactly when the
    Return Stack is non-empty and the loop was not left through [exit]. *)
Theorem exit_leaves_return_stack (B : Builtins) (s : Interpreter)
  (pre post : str) (fuel : nat)
  (Hload : loading s = false)
  (Hcode : code s = pre ++ EXIT ++ post) (Hpos : pos s = Int (len pre)) :
  (exists s', run (S fuel) s = (Returned, s')
              /\ return_positions s' = return_positions s /\ pos s' = Inf)
  /\ (forall t t', epilogue t = (Raised SyntaxError, t') <->
                   (return_positions t <> [] /\ pos t <> Inf /\ t' = t)).
Proof.
  split.
  - eexists. split; [by apply (run_exit s pre post)|]. done.
  - intros t t'. split.
    + intros Heq. destruct (epilogue_SyntaxError t t' Heq) as [Hr Hp].
      rewrite (epilogue_unbalanced t Hr Hp) in Heq.
      split; [done|]. split; [done|]. congruence.
    + intros (Hr & Hp & ->). by apply epilogue_unbalanced.
Qed.

Lemma exit_leaves_return_stack_witness :
  exists s', @run no_int 1 inside_call = (Returned, s')
             /\ return_positions s' = [Int 4] /\ pos s' = Inf.
Proof.
  apply (proj1 (exit_leaves_return_stack no_int inside_call
                  ([LF; SPACE; TAB; LF] ++ [LF; SPACE; SPACE; LF]) [] 0%nat
                  eq_refl eq_refl eq_refl)).
Defined.

(** C1, as stated, fails: [call_then_exit] reaches [exit] inside the
    subroutine; the run returns with the Return Stack still holding the
    return address, and no error is raised. *)
Lemma exit_inside_subroutine_returns :
  exists s', @run no_int 5 (Interpreter_init call_then_exit [])
             = (Returned, s')
             /\ return_positions s' = [Int 4] /\ return_positions s' <> [].
Proof. eexists. split; [vm_compute; reflexivity|]. by split. Qed.

(** C5, as the code has it: in the execution phase [exit] ends the run
    with success from any offset; in the discovery phase it is only
    stepped over, the loop going on with the instruction that follows. *)
Theorem exit_by_phase (B : Builtins) (s : Interpreter) (pre post : str)
  (Hcode : code s = pre ++ EXIT ++ post) (Hpos : pos s = Int (len pre)) :
  (loading s = false ->
     forall fuel,
       run (S fuel) s
       = (Returned,
          set_pos Inf (set_command "exit" (set_instruction "FlowControl" s))))
  /\ (loading s = true ->
      step s
      = (Ok tt, set_pos (Int (len pre + 3))
                  (set_command "exit" (set_instruction "FlowControl" s)))
      /\ forall fuel,
           while_loop (S fuel) s
           = while_loop fuel
               (set_pos (Int (len pre + 3))
                  (set_command "exit" (set_instruction "FlowControl" s)))).
Proof.
  split.
  - intros Hl fuel. by apply (run_exit s pre post).
  - intros Hl.
    assert (Hstep : step s
                    = (Ok tt, set_pos (Int (len pre + 3))
                                (set_command "exit"
                                   (set_instruction "FlowControl" s)))).
    { rewrite (step_exit s pre post Hcode Hpos). by rewrite Hl. }
    split; [done|]. intros fuel.
    apply while_loop_step; [|done].
    by destruct (in_program_at s pre EXIT post Hcode ltac:(done) Hpos).
Qed.

Lemma exit_by_phase_witness :
  @run no_int 1 (set_loading false (Interpreter_init exit_then_garbage []))
  = (Returned,
     set_pos Inf
       (set_command "exit"
          (set_instruction "FlowControl"
             (set_loading false (Interpreter_init exit_then_garbage [])))))
  /\ @step no_int (Interpreter_init exit_then_garbage [])
     = (Ok tt, set_pos (Int 3)
                 (set_command "exit"
                    (set_instruction "FlowControl"
                       (Interpreter_init exit_then_garbage [])))).
Proof.
  split.
  - apply (proj1 (exit_by_phase no_int
                    (set_loading false (Interpreter_init exit_then_garbage []))
                    [] [TAB; LF; LF] eq_refl eq_refl)).
    reflexivity.
  - apply (proj2 (exit_by_phase no_int (Interpreter_init exit_then_garbage [])
                    [] [TAB; LF; LF] eq_refl eq_refl)).
    reflexivity.
Defined.

(** C5, as stated, fails: the [exit] at offset 0 of [exit_then_garbage] is
    met in the discovery phase and does not end the run, which goes on to
    the next instruction and fails there, still in discovery. *)
Lemma exit_in_discovery_goes_on :
  exists s', @run no_int 5 (Interpreter_init exit_then_garbage [])
             = (Raised KeyError, s')
             /\ loading s' = true /\ pos s' = Int 5.
Proof. eexists. split; [vm_compute; reflexivity|]. by split. Qed.

(** ** Literals without a terminator *)

Lemma run_eq `{Builtins} fuel s :
  run fuel s
  = if code_length s =? 0 then (Raised SyntaxError, s)
    else match while_loop fuel s with
         | (Returned, s') =>
             if loading s' then
               match fuel with
               | O => (OutOfFuel, s')
               | S fuel' => run fuel' (set_loading false (set_pos (Int 0) s'))
               end
             else epilogue s'
         | other => other
         end.
Proof. destruct fuel; reflexivity. Qed.

(** A state that one instruction maps to itself is never left. *)
Lemma while_loop_fixed_point `{Builtins} s :
  in_program s = true -> step s = (Ok tt, s) ->
  forall fuel, while_loop fuel s = (OutOfFuel, s).
Proof.
  intros Hin Hstep fuel. induction fuel as [|fuel IH].
  - simpl. by rewrite Hin.
  - by rewrite (while_loop_step fuel s s Hin Hstep).
Qed.

(** Without a terminator [label_parameter] does not fail: it answers the
    offset 0 and the empty name. *)
Lemma label_parameter_unterminated s pre tail :
  code s = pre ++ tail -> LF ∉ tail -> pos s = Int (len pre) ->
  label_parameter s = (Ok (0, []), s).
Proof.
  intros Hc Hnot Hp. unfold label_parameter, bind, gets, int_pos, ret.
  rewrite Hp. rewrite (find_no_terminator (code s) pre tail Hc Hnot).
  change (-1 + 1) with 0. do 3 f_equal.
  unfold slice. pose proof (len_nonneg pre). pose proof (len_nonneg (code s)).
  assert (len pre <= len (code s))
    by (rewrite Hc, len_app; pose proof (len_nonneg tail); lia).
  rewrite !clamp_inside by lia.
  replace (Z.to_nat (0 - len pre)) with 0%nat by lia. reflexivity.
Qed.

Lemma run_unterminated `{Builtins} (c : str) (again : Interpreter) :
  code_length (Interpreter_init c []) <> 0 ->
  in_program (Interpreter_init c []) = true ->
  step (Interpreter_init c []) = (Ok tt, again) ->
  in_program again = true -> step again = (Ok tt, again) ->
  forall fuel, fst (run fuel (Interpreter_init c [])) = OutOfFuel.
Proof.
  intros Hlen Hin0 Hstep0 Hin Hstep fuel.
  rewrite run_eq. apply Z.eqb_neq in Hlen. rewrite Hlen.
  destruct fuel as [|fuel].
  - simpl. by rewrite Hin0.
  - rewrite (while_loop_step fuel _ _ Hin0 Hstep0).
    by rewrite (while_loop_fixed_point again Hin Hstep).
Qed.

(** C2 fails on the code: a literal with no terminator before the end of
    the program is not reported.  [str.find] answers [-1], which the
    decoders use as an offset, and the discovery loop starts again at
    offset 0: neither program below ever returns or raises. *)
Theorem missing_terminator_not_reported (B : Builtins) (fuel : nat) :
  fst (run fuel (Interpreter_init unterminated_jump [])) = OutOfFuel
  /\ fst (run fuel (Interpreter_init unterminated_push [])) = OutOfFuel
  /\ label_parameter (set_pos (Int 3) (Interpreter_init unterminated_jump []))
     = (Ok (0, []), set_pos (Int 3) (Interpreter_init unterminated_jump []))
  /\ num_parameter (set_pos (Int 2) (Interpreter_init unterminated_push []))
     = (Ok (-1, 1), set_pos (Int 2) (Interpreter_init unterminated_push [])).
Proof.
  split; [|split; [|split]].
  - apply (run_unterminated unterminated_jump jump_again);
      [done | reflexivity..].
  - apply (run_unterminated unterminated_push push_again);
      [done | reflexivity..].
  - reflexivity.
  - reflexivity.
Qed.

(** ** What a computation leaves alone *)

Section Preservation.
Context (R : Interpreter -> Interpreter -> Prop).
Hypothesis R_refl : forall s, R s s.
Hypothesis R_trans : forall s1 s2 s3, R s1 s2 -> R s2 s3 -> R s1 s3.

Lemma preserves_ret {A} (a : A) : preserves R (ret a).
Proof. intros s r s' [= _ <-]. apply R_refl. Qed.

Lemma preserves_raise {A} (e : exn) : preserves R (@raise A e).
Proof. intros s r s' [= _ <-]. apply R_refl. Qed.

Lemma preserves_gets {A} (f : Interpreter -> A) : preserves R (gets f).
Proof. intros s r s' [= _ <-]. apply R_refl. Qed.

Lemma preserves_lift {A} (x : result A) : preserves R (lift x).
Proof. intros s r s' [= _ <-]. apply R_refl. Qed.

Lemma preserves_modify (f : Interpreter -> Interpreter) :
  (forall s, R s (f s)) -> preserves R (modify f).
Proof. intros Hf s r s' [= _ <-]. apply Hf. Qed.

Lemma preserves_bind {A B} (m : M A) (k : A -> M B) :
  preserves R m -> (forall a, preserves R (k a)) -> preserves R (bind m k).
Proof.
  intros Hm Hk s r s'. unfold bind.
  destruct (m s) as [[a|e] s1] eqn:Hms.
  - intros Hks. eapply R_trans; [by eapply Hm | by eapply Hk].
  - intros [= _ <-]. by eapply Hm.
Qed.

Lemma preserves_int_pos : preserves R int_pos.
Proof.
  intros s r s'. unfold int_pos.
  destruct (pos s); intros [= _ <-]; apply R_refl.
Qed.

Lemma preserves_stack_pop :
  (forall s l, R s (set_stack l s)) -> preserves R stack_pop.
Proof.
  intros Hset s r s'. unfold stack_pop.
  destruct (list_pop (stack s)) as [[x l]|]; intros [= _ <-];
    [apply Hset | apply R_refl].
Qed.

Lemma preserves_pop_times (k : nat) :
  (forall s l, R s (set_stack l s)) -> preserves R (Stack.pop_times k).
Proof.
  intros Hset. induction k as [|k IH]; simpl.
  - apply preserves_ret.
  - apply preserves_bind; [by apply preserves_stack_pop | done].
Qed.

Lemma preserves_input_pop_front :
  (forall s l, R s (set_input l s)) -> preserves R IO.input_pop_front.
Proof.
  intros Hset s r s'. unfold IO.input_pop_front.
  destruct (input s); intros [= _ <-]; [apply R_refl | apply Hset].
Qed.

Lemma preserves_exit_subroutine :
  (forall s p l, R s (set_pos p (set_return_positions l s))) ->
  preserves R FlowControl.exit_subroutine.
Proof.
  intros Hset s r s'. unfold FlowControl.exit_subroutine.
  destruct (list_pop (return_positions s)) as [[x l]|]; intros [= _ <-];
    [apply Hset | apply R_refl].
Qed.

End Preservation.

(** Breaks a computation into its primitive steps; [side] settles what
    each assignment must satisfy. *)
Ltac preserving_step refl trans side :=
  first
    [ apply (preserves_ret _ refl)
    | apply (preserves_raise _ refl)
    | apply (preserves_gets _ refl)
    | apply (preserves_lift _ refl)
    | apply (preserves_int_pos _ refl)
    | apply (preserves_modify _); intros; side
    | apply (preserves_stack_pop _ refl); intros; side
    | apply (preserves_pop_times _ refl trans); intros; side
    | apply (preserves_input_pop_front _ refl); intros; side
    | apply (preserves_exit_subroutine _ refl); intros; side
    | apply (preserves_bind _ trans); [|intros ?]
    | match goal with
      | |- preserves _ (if ?c then _ else _) => destruct c
      | |- preserves _ (match ?x with _ => _ end) => destruct x
      end ].

Ltac preserving refl trans side :=
  repeat preserving_step refl trans side.

Lemma same_phase_refl s : same_phase s s.
Proof. by split. Qed.

Lemma same_phase_trans s1 s2 s3 :
  same_phase s1 s2 -> same_phase s2 s3 -> same_phase s1 s3.
Proof. intros [? ?] [? ?]. split; congruence. Qed.

Ltac phase_side := split; reflexivity.

(** No instruction changes the phase or the program text. *)
Lemma step_same_phase `{Builtins} : preserves same_phase step.
Proof.
  unfold step, dispatch, next_token, advance,
    Stack.parse, Arithmetic.parse, Heap.parse, IO.parse, FlowControl.parse,
    get_command, next_token, num_parameter, label_parameter, advance, when,
    Stack.push_num, Stack.duplicate_nth, Stack.discard_n, Stack.discard_top,
    Stack.swap, Arithmetic.add, Arithmetic.sub, Arithmetic.mul,
    Arithmetic.floordiv, Arithmetic.mod_, Heap.store, Heap.push,
    IO.output_char, IO.output_num, IO.input_char, IO.input_num, console_print,
    FlowControl.exit, FlowControl.mark_label, FlowControl.jump,
    FlowControl.call_subroutine, FlowControl.jump, stack_append.
  preserving same_phase_refl same_phase_trans phase_side.
Qed.

(** ** The discovery phase *)

Lemma same_machine_refl s : same_machine s s.
Proof. by repeat split. Qed.

Lemma same_machine_trans s1 s2 s3 :
  same_machine s1 s2 -> same_machine s2 s3 -> same_machine s1 s3.
Proof.
  unfold same_machine. intros H12 H23.
  destruct H12 as (? & ? & ? & ? & ? & ? & ? & ? & ?).
  destruct H23 as (? & ? & ? & ? & ? & ? & ? & ? & ?).
  repeat split; congruence.
Qed.

Lemma quiet_refl s : quiet s s.
Proof. intros _. apply same_machine_refl. Qed.

Lemma quiet_trans s1 s2 s3 : quiet s1 s2 -> quiet s2 s3 -> quiet s1 s3.
Proof.
  intros H12 H23 Hl. specialize (H12 Hl).
  eapply same_machine_trans; [done|]. apply H23.
  destruct H12 as (_ & _ & _ & _ & _ & _ & _ & _ & ->). done.
Qed.

(** In the discovery phase [self.loading] reads as true. *)
Lemma preserves_quiet_loading {A} (k : bool -> M A) :
  preserves quiet (k true) -> preserves quiet (bind (gets loading) k).
Proof.
  intros Hk s r s' Hrun Hl. unfold bind, gets in Hrun. rewrite Hl in Hrun.
  by apply (Hk s r s').
Qed.

Ltac quiet_side := intros _; repeat split; reflexivity.

Ltac discovering :=
  repeat first
    [ apply preserves_quiet_loading; cbv beta; cbn [when negb]
    | preserving_step quiet_refl quiet_trans quiet_side ].

Lemma get_command_quiet imp : preserves quiet (get_command imp).
Proof. unfold get_command, next_token, advance. discovering. Qed.

Lemma label_parameter_quiet : preserves quiet label_parameter.
Proof. unfold label_parameter. discovering. Qed.

Lemma Stack_parse_quiet : preserves quiet Stack.parse.
Proof.
  unfold Stack.parse, get_command, next_token, num_parameter, advance.
  discovering.
Qed.

Lemma Arithmetic_parse_quiet : preserves quiet Arithmetic.parse.
Proof.
  unfold Arithmetic.parse, get_command, next_token, advance. discovering.
Qed.

Lemma Heap_parse_quiet : preserves quiet Heap.parse.
Proof. unfold Heap.parse, get_command, next_token, advance. discovering. Qed.

Lemma IO_parse_quiet `{Builtins} : preserves quiet IO.parse.
Proof. unfold IO.parse, get_command, next_token, advance. discovering. Qed.

Lemma label_parameter_state s r s' : label_parameter s = (r, s') -> s' = s.
Proof.
  unfold label_parameter, bind, gets, int_pos, ret.
  destruct (pos s); by intros [= _ <-].
Qed.

Lemma same_machine_discovery s s' :
  loading s = true -> same_machine s s' ->
  discovery_frame s s' /\ labels s' = labels s.
Proof.
  intros Hl (? & ? & ? & ? & ? & ? & ? & ? & Hl').
  repeat split; congruence.
Qed.

(** Flow control in the discovery phase: only [mark_label] acts, and only
    on the label table. *)
Lemma FlowControl_parse_discovery s r s' :
  loading s = true -> FlowControl.parse s = (r, s') ->
  discovery_frame s s' /\ labels_marked s s'.
Proof.
  intros Hl Hrun. unfold FlowControl.parse in Hrun. unfold bind at 1 in Hrun.
  destruct (get_command FlowControl.FLOW_IMP s) as [[[]|e] s1] eqn:Hg.
  2: { injection Hrun as <- <-.
       destruct (same_machine_discovery s s1 Hl
                   (get_command_quiet _ _ _ _ Hg Hl)) as [Hf Hlab].
       split; [done | by left]. }
  pose proof (get_command_quiet _ _ _ _ Hg Hl) as Hsame.
  destruct (same_machine_discovery s s1 Hl Hsame) as [Hf1 Hlab1].
  assert (Hl1 : loading s1 = true) by apply Hf1.
  unfold bind at 1, gets at 1 in Hrun. unfold bind at 1, gets at 1 in Hrun.
  rewrite Hl1 in Hrun. cbn [when negb] in Hrun.
  destruct (named (command s1) "mark_label") eqn:Hm.
  - apply String.eqb_eq in Hm. rewrite Hm in Hrun.
    cbn [named String.eqb Ascii.eqb Bool.eqb] in Hrun.
    unfold bind at 1 in Hrun.
    destruct (label_parameter s1) as [[[index label]|e] s2] eqn:Hlp;
      apply label_parameter_state in Hlp as ->.
    2: { injection Hrun as <- <-. split; [done | by left]. }
    unfold bind at 1, FlowControl.mark_label, bind at 1, gets at 1 in Hrun.
    destruct (labels s1 !! label) as [p|] eqn:Hlook.
    + injection Hrun as <- <-. split; [done | by left].
    + injection Hrun as <- <-.
      destruct Hf1 as (? & ? & ? & ? & ? & ? & ?).
      split; [by repeat split|].
      right. split; [done|].
      exists label, (FlowControl.pos_plus (pos s1) (len label)).
      rewrite <- Hlab1. by split.
  - assert (Hq : same_machine s1 s').
    { cbv iota in Hrun. revert Hrun.
      match goal with
      | |- ?m s1 = _ -> _ =>
          assert (Hp : preserves quiet m)
      end.
      { unfold label_parameter. discovering. }
      intros Hrun. by apply (Hp s1 r s'). }
    destruct (same_machine_discovery s s' Hl
                (same_machine_trans _ _ _ Hsame Hq)) as [Hf Hlab].
    split; [done | by left].
Qed.

Lemma quiet_discovery {A} (m : M A) s r s' :
  preserves quiet m -> loading s = true -> m s = (r, s') ->
  discovery_frame s s' /\ labels_marked s s'.
Proof.
  intros Hm Hl Hrun.
  destruct (same_machine_discovery s s' Hl (Hm s r s' Hrun Hl)) as [Hf Hlab].
  split; [done | by left].
Qed.

Lemma dispatch_discovery `{Builtins} s r s' :
  loading s = true -> dispatch s = (r, s') ->
  discovery_frame s s' /\ labels_marked s s'.
Proof.
  intros Hl. unfold dispatch, bind, gets.
  repeat match goal with
         | |- (if ?c then _ else _) s = _ -> _ => destruct c
         end.
  - exact (quiet_discovery _ s r s' Stack_parse_quiet Hl).
  - exact (quiet_discovery _ s r s' Arithmetic_parse_quiet Hl).
  - exact (quiet_discovery _ s r s' Heap_parse_quiet Hl).
  - exact (quiet_discovery _ s r s' IO_parse_quiet Hl).
  - by apply FlowControl_parse_discovery.
  - exact (quiet_discovery _ s r s' (preserves_raise _ quiet_refl _) Hl).
Qed.

(** What comes after a decoding step that left the machine alone. *)
Lemma discovery_after_decode s s1 s' :
  same_machine s s1 ->
  discovery_frame s1 s' /\ labels_marked s1 s' ->
  discovery_frame s s' /\ labels_marked s s'.
Proof.
  intros (? & ? & ? & ? & ? & Hlab & ? & ? & ?)
         [(? & ? & ? & ? & ? & ? & ?) Hm].
  split; [repeat split; congruence|].
  unfold labels_marked in *. by rewrite <- Hlab.
Qed.

Lemma step_discovery `{Builtins} s r s' :
  loading s = true -> step s = (r, s') ->
  discovery_frame s s' /\ labels_marked s s'.
Proof.
  intros Hl. unfold step. unfold bind at 1.
  destruct (next_token IMP s) as [[token|e] s1] eqn:Htok.
  2: { intros [= <- <-]. revert Htok.
       apply quiet_discovery; [|done]. unfold next_token. discovering. }
  assert (Hs1 : s1 = s).
  { revert Htok. unfold next_token, bind, int_pos, gets, ret.
    destruct (pos s); by intros [= _ <-]. }
  subst s1.
  destruct (imp_lookup token IMP) as [[key value]|].
  2: { exact (quiet_discovery _ s r s' (preserves_raise _ quiet_refl _) Hl). }
  unfold bind at 1, modify at 1. unfold bind at 1, advance at 1, modify at 1.
  intros Hrun.
  eapply discovery_after_decode; [|eapply dispatch_discovery; [|exact Hrun]].
  - by repeat split.
  - exact Hl.
Qed.

Lemma discovery_frame_trans s1 s2 s3 :
  discovery_frame s1 s2 -> discovery_frame s2 s3 -> discovery_frame s1 s3.
Proof.
  intros (? & ? & ? & ? & ? & ? & ?) (? & ? & ? & ? & ? & ? & ?).
  repeat split; congruence.
Qed.

Lemma labels_marked_subseteq s s' : labels_marked s s' -> labels s ⊆ labels s'.
Proof.
  intros [-> | (_ & name & v & Hnone & ->)]; [done|].
  by apply insert_subseteq.
Qed.

(** The whole discovery pass, however it ends. *)
Lemma while_loop_discovery `{Builtins} fuel : forall s r s',
  loading s = true -> while_loop fuel s = (r, s') ->
  discovery_frame s s' /\ labels s ⊆ labels s'.
Proof.
  induction fuel as [|fuel IH]; intros s r s' Hl; simpl.
  - destruct (in_program s); intros [= _ <-]; by repeat split.
  - destruct (in_program s); [|intros [= _ <-]; by repeat split].
    destruct (step s) as [[[]|e] s1] eqn:Hstep.
    + destruct (step_discovery s _ s1 Hl Hstep) as [Hf Hm].
      intros Hrun.
      destruct (IH s1 r s' ltac:(apply Hf) Hrun) as [Hf' Hsub].
      split; [by eapply discovery_frame_trans|].
      etrans; [by apply labels_marked_subseteq | done].
    + intros [= _ <-].
      destruct (step_discovery s _ s1 Hl Hstep) as [Hf Hm].
      split; [done | by apply labels_marked_subseteq].
Qed.

Lemma while_loop_same_phase `{Builtins} fuel : forall s r s',
  while_loop fuel s = (r, s') -> same_phase s s'.
Proof.
  induction fuel as [|fuel IH]; intros s r s'; simpl.
  - destruct (in_program s); intros [= _ <-]; apply same_phase_refl.
  - destruct (in_program s); [|intros [= _ <-]; apply same_phase_refl].
    destruct (step s) as [[[]|e] s1] eqn:Hstep.
    + intros Hrun. eapply same_phase_trans; [|by eapply IH].
      by eapply step_same_phase.
    + intros [= _ <-]. by eapply step_same_phase.
Qed.

Lemma epilogue_state s r s' : epilogue s = (r, s') -> s' = s.
Proof.
  unfold epilogue. repeat case_match; by intros [= _ <-].
Qed.

(** A run started in the execution phase stays in it. *)
Lemma run_execution `{Builtins} fuel s r s' :
  loading s = false -> run fuel s = (r, s') -> loading s' = false.
Proof.
  intros Hl. rewrite run_eq.
  destruct (code_length s =? 0); [by intros [= _ <-]|].
  destruct (while_loop fuel s) as [o s1] eqn:Hloop.
  destruct (while_loop_same_phase fuel s o s1 Hloop) as [Hl1 _].
  rewrite Hl in Hl1.
  destruct o; try (intros [= _ <-]; done).
  rewrite Hl1. intros Hep. by apply epilogue_state in Hep as ->.
Qed.

(** * Further properties of the code *)

(** ** The source sanitizer *)

Lemma uncomment_cons (c : char) (s : str) :
  uncomment (c :: s)
  = if decide (significant c) then c :: uncomment s else uncomment s.
Proof.
  unfold uncomment, significant. rewrite filter_cons.
  by destruct (decide (c = SPACE \/ c = TAB \/ c = LF)).
Qed.

(** X1: [uncomment] keeps exactly the occurrences of space, tab and
    line-feed, in the order they had: the result holds these three
    characters only, it is a sublist of the text, each of the three
    occurs in it as many times as in the text, and the result for a text
    followed by another is the one result followed by the other. *)
Theorem uncomment_keeps_significant (s : str) :
  Forall significant (uncomment s)
  /\ uncomment s `sublist_of` s
  /\ (forall c, significant c ->
        length (filter (fun x => x = c) (uncomment s))
        = length (filter (fun x => x = c) s))
  /\ (forall t, uncomment (s ++ t) = uncomment s ++ uncomment t).
Proof.
  split; [|split; [|split]].
  - induction s as [|x s IH]; [by apply Forall_nil|].
    rewrite uncomment_cons. destruct (decide (significant x)); [|done].
    apply Forall_cons. by split.
  - apply sublist_filter.
  - intros c Hc. induction s as [|x s IH]; [done|].
    rewrite uncomment_cons, !filter_cons.
    destruct (decide (significant x)) as [Hx|Hx].
    + rewrite filter_cons. destruct (decide (x = c)); simpl; by rewrite IH.
    + destruct (decide (x = c)) as [->|_]; [done | exact IH].
  - intros t. induction s as [|x s IH]; [done|].
    change ((x :: s) ++ t) with (x :: (s ++ t)).
    rewrite !uncomment_cons, IH. by destruct (decide (significant x)).
Qed.

Lemma uncomment_keeps_significant_witness :
  significant TAB
  /\ length (filter (fun x => x = TAB) (uncomment commented_text))
     = length (filter (fun x => x = TAB) commented_text).
Proof.
  assert (Htab : significant TAB) by (right; by left).
  split; [exact Htab|].
  exact (proj1 (proj2 (proj2 (uncomment_keeps_significant commented_text)))
           TAB Htab).
Defined.

Lemma uncomment_clean (s : str) : Forall significant s -> uncomment s = s.
Proof.
  induction 1 as [|c s Hc Hs IH]; [done|].
  unfold uncomment in *. rewrite filter_cons.
  destruct (decide (c = SPACE \/ c = TAB \/ c = LF)) as [_|Hn]; [|done].
  by rewrite IH.
Qed.

(** X2: [uncomment] changes nothing in a text made of the three
    characters only, so sanitizing twice is sanitizing once. *)
Theorem uncomment_idempotent (s : str) :
  (Forall significant s -> uncomment s = s)
  /\ uncomment (uncomment s) = uncomment s.
Proof.
  split; [apply uncomment_clean|].
  apply uncomment_clean. apply Forall_forall. intros c Hc.
  unfold uncomment in Hc. by apply list_elem_of_filter in Hc as [Hc _].
Qed.

Lemma uncomment_idempotent_witness :
  uncomment bare_text = bare_text
  /\ uncomment commented_text = bare_text.
Proof.
  split.
  - apply (proj1 (uncomment_idempotent bare_text)).
    repeat (apply Forall_cons; split; [unfold significant; auto|]).
    by apply Forall_nil.
  - reflexivity.
Defined.

(** ** Numeric literals *)

Lemma indices_snoc (bits : str) (d : char) :
  WhitespaceInt.indices (bits ++ [d])
  = match WhitespaceInt.indices bits with
    | Raise e => Raise e
    | Ok ds => match list_index d WhitespaceInt.keys with
               | Raise e => Raise e
               | Ok k => Ok (ds ++ [k])
               end
    end.
Proof.
  induction bits as [|x bits IH].
  - simpl. by destruct (list_index d WhitespaceInt.keys).
  - change ((x :: bits) ++ [d]) with (x :: (bits ++ [d])).
    cbn [WhitespaceInt.indices]. rewrite IH.
    destruct (list_index x WhitespaceInt.keys); [|done].
    destruct (WhitespaceInt.indices bits); [|done].
    by destruct (list_index d WhitespaceInt.keys).
Qed.

Lemma keys_index_digit (c : char) (k : Z) :
  list_index c WhitespaceInt.keys = Ok k ->
  (c = SPACE /\ k = 0) \/ (c = TAB /\ k = 1).
Proof.
  unfold WhitespaceInt.keys. cbn [list_index].
  destruct (Z.eqb_spec SPACE c) as [<-|_]; [intros [= <-]; by left|].
  destruct (Z.eqb_spec TAB c) as [<-|_]; [intros [= <-]; by right|].
  discriminate.
Qed.

Lemma indices_digits (bits : str) : forall ds,
  WhitespaceInt.indices bits = Ok ds ->
  length ds = length bits /\ Forall (fun d => d = 0 \/ d = 1) ds.
Proof.
  induction bits as [|x bits IH]; intros ds; cbn [WhitespaceInt.indices].
  - intros [= <-]. by split.
  - destruct (list_index x WhitespaceInt.keys) as [k|e] eqn:Hk; [|done].
    destruct (WhitespaceInt.indices bits) as [ks|e]; [|done].
    intros [= <-]. destruct (IH ks eq_refl) as [Hlen Hall].
    split; [simpl; by rewrite Hlen|].
    constructor; [|done].
    destruct (keys_index_digit x k Hk) as [[_ ->]|[_ ->]]; auto.
Qed.

Lemma len_cons_not_1 {A} (x : A) (l : list A) :
  l <> [] -> (len (x :: l) =? 1) = false.
Proof.
  intros Hl. apply Z.eqb_neq. unfold len. destruct l; [done|]. simpl. lia.
Qed.

(** The value of a literal with a sign and at least one digit. *)
Lemma from_whitespace_signed (c0 : char) (bits : str) :
  bits <> [] ->
  WhitespaceInt.from_whitespace (c0 :: bits)
  = match list_index c0 WhitespaceInt.keys with
    | Raise e => Raise e
    | Ok k0 =>
        match WhitespaceInt.indices bits with
        | Raise e => Raise e
        | Ok ds =>
            Ok (fold_left (fun acc b => 2 * acc + b) ds 0 * (2 * (1 - k0) - 1))
        end
    end.
Proof.
  intros Hb. unfold WhitespaceInt.from_whitespace.
  rewrite (len_cons_not_1 c0 bits Hb).
  destruct (list_index c0 WhitespaceInt.keys); [|done].
  destruct (WhitespaceInt.indices bits) as [ds|e] eqn:Hds; [|done].
  destruct ds as [|d ds]; [|done].
  apply indices_digits in Hds as [Hlen _]. by destruct bits.
Qed.

(** X3: the sign character only changes the sign: a body that starts
    with a tab decodes to the opposite of the same body started with a
    space, and fails where that one fails. *)
Theorem from_whitespace_sign (bits : str) (Hbits : bits <> []) :
  WhitespaceInt.from_whitespace (TAB :: bits)
  = match WhitespaceInt.from_whitespace (SPACE :: bits) with
    | Ok n => Ok (- n)
    | Raise e => Raise e
    end.
Proof.
  rewrite !from_whitespace_signed by done.
  change (list_index TAB WhitespaceInt.keys) with (@Ok Z 1).
  change (list_index SPACE WhitespaceInt.keys) with (@Ok Z 0).
  destruct (WhitespaceInt.indices bits); [|done].
  f_equal. lia.
Qed.

Lemma from_whitespace_sign_witness :
  WhitespaceInt.from_whitespace [TAB; TAB; SPACE; TAB]
  = match WhitespaceInt.from_whitespace [SPACE; TAB; SPACE; TAB] with
    | Ok n => Ok (- n)
    | Raise e => Raise e
    end.
Proof. apply (from_whitespace_sign [TAB; SPACE; TAB]). discriminate. Defined.

(** X4: the digits are read most significant first: one more space at
    the end of the body doubles the value, one more tab doubles it and
    adds one. *)
Theorem from_whitespace_append_digit (bits : str) (v : Z)
  (Hbits : bits <> [])
  (Hv : WhitespaceInt.from_whitespace (SPACE :: bits) = Ok v) :
  WhitespaceInt.from_whitespace (SPACE :: bits ++ [SPACE]) = Ok (2 * v)
  /\ WhitespaceInt.from_whitespace (SPACE :: bits ++ [TAB]) = Ok (2 * v + 1).
Proof.
  rewrite from_whitespace_signed in Hv by done.
  assert (Hne : forall d, bits ++ [d] <> []) by (intros d; by destruct bits).
  rewrite !from_whitespace_signed by apply Hne.
  rewrite !indices_snoc.
  change (list_index SPACE WhitespaceInt.keys) with (@Ok Z 0) in *.
  change (list_index TAB WhitespaceInt.keys) with (@Ok Z 1).
  destruct (WhitespaceInt.indices bits) as [ds|e]; [|done].
  injection Hv as <-. rewrite !fold_left_app. simpl. split; f_equal; lia.
Qed.

Lemma from_whitespace_append_digit_witness :
  WhitespaceInt.from_whitespace [SPACE; TAB; SPACE; SPACE] = Ok (2 * 2)
  /\ WhitespaceInt.from_whitespace [SPACE; TAB; SPACE; TAB] = Ok (2 * 2 + 1).
Proof.
  apply (from_whitespace_append_digit [TAB; SPACE] 2);
    [discriminate | reflexivity].
Defined.

Lemma positive_has_digits (p : positive) :
  exists bits ds,
    bits <> [] /\ Forall blank bits /\ WhitespaceInt.indices bits = Ok ds
    /\ fold_left (fun acc b => 2 * acc + b) ds 0 = Z.pos p.
Proof.
  induction p as [p (bits & ds & Hne & Hall & Hds & Hv)
                 |p (bits & ds & Hne & Hall & Hds & Hv)|].
  - exists (bits ++ [TAB]), (ds ++ [1]). split; [by destruct bits|].
    split; [|split].
    + apply Forall_app. split; [done|].
      apply Forall_cons. split; [by right | by apply Forall_nil].
    + by rewrite indices_snoc, Hds.
    + rewrite fold_left_app. simpl. rewrite Hv. lia.
  - exists (bits ++ [SPACE]), (ds ++ [0]). split; [by destruct bits|].
    split; [|split].
    + apply Forall_app. split; [done|].
      apply Forall_cons. split; [by left | by apply Forall_nil].
    + by rewrite indices_snoc, Hds.
    + rewrite fold_left_app. simpl. rewrite Hv. lia.
  - exists [TAB], [1]. split; [done|]. split; [|by split].
    apply Forall_cons. split; [by right | by apply Forall_nil].
Qed.

(** X5: every integer is the value of some literal body made of spaces
    and tabs. *)
Theorem every_integer_has_a_literal (n : Z) :
  exists body, Forall blank body
               /\ WhitespaceInt.from_whitespace body = Ok n.
Proof.
  destruct n as [|p|p].
  - exists [SPACE]. split; [|done].
    apply Forall_cons. split; [by left | by apply Forall_nil].
  - destruct (positive_has_digits p) as (bits & ds & Hne & Hall & Hds & Hv).
    exists (SPACE :: bits). split; [constructor; [by left | done]|].
    rewrite from_whitespace_signed by done.
    change (list_index SPACE WhitespaceInt.keys) with (@Ok Z 0).
    rewrite Hds, Hv. f_equal. lia.
  - destruct (positive_has_digits p) as (bits & ds & Hne & Hall & Hds & Hv).
    exists (TAB :: bits). split; [constructor; [by right | done]|].
    rewrite from_whitespace_signed by done.
    change (list_index TAB WhitespaceInt.keys) with (@Ok Z 1).
    rewrite Hds, Hv. f_equal. lia.
Qed.

Lemma fold_digits_bound (ds : list Z) : forall acc,
  Forall (fun d => d = 0 \/ d = 1) ds -> 0 <= acc ->
  0 <= fold_left (fun a b => 2 * a + b) ds acc < (acc + 1) * 2 ^ len ds.
Proof.
  induction ds as [|d ds IH]; intros acc Hall Hacc.
  - simpl. change (len []) with 0. lia.
  - apply Forall_cons in Hall as [Hd Hall]. simpl.
    assert (Hlen : len (d :: ds) = len ds + 1)
      by (unfold len; simpl length; lia).
    rewrite Hlen, Z.pow_add_r by (pose proof (len_nonneg ds); lia).
    specialize (IH (2 * acc + d) Hall ltac:(lia)).
    pose proof (Z.pow_pos_nonneg 2 (len ds) ltac:(lia) (len_nonneg ds)).
    nia.
Qed.

(** X6: a literal with a sign and [k >= 1] digits decodes to a value of
    magnitude below [2 ^ k], not negative after a space and not positive
    after a tab. *)
Theorem from_whitespace_bound (c0 : char) (bits : str) (v : Z)
  (Hbits : bits <> [])
  (Hv : WhitespaceInt.from_whitespace (c0 :: bits) = Ok v) :
  Z.abs v < 2 ^ len bits
  /\ (c0 = SPACE -> 0 <= v) /\ (c0 = TAB -> v <= 0).
Proof.
  rewrite from_whitespace_signed in Hv by done.
  destruct (list_index c0 WhitespaceInt.keys) as [k0|e] eqn:Hk; [|done].
  destruct (WhitespaceInt.indices bits) as [ds|e] eqn:Hds; [|done].
  injection Hv as <-.
  destruct (indices_digits bits ds Hds) as [Hlen Hall].
  pose proof (fold_digits_bound ds 0 Hall ltac:(lia)) as Hb.
  replace (len ds) with (len bits) in Hb by (unfold len; by rewrite Hlen).
  destruct (keys_index_digit c0 k0 Hk) as [[-> ->]|[-> ->]].
  - split; [lia|]. split; [lia|]. discriminate.
  - split; [lia|]. split; [discriminate|]. lia.
Qed.

Lemma from_whitespace_bound_witness :
  Z.abs (-5) < 2 ^ len [TAB; SPACE; TAB]
  /\ (TAB = SPACE -> 0 <= -5) /\ (TAB = TAB -> -5 <= 0).
Proof.
  apply (from_whitespace_bound TAB [TAB; SPACE; TAB] (-5));
    [discriminate | reflexivity].
Defined.

(** X7: a numeric literal that has a body and a terminator is decoded
    from exactly its body: [num_parameter] answers the offset of the
    terminator and the value of the body, or fails as the body does, and
    changes nothing. *)
Theorem num_parameter_decodes (s : Interpreter) (pre body post : str)
  (Hcode : code s = pre ++ body ++ LF :: post)
  (Hbody : body <> []) (Hnot : LF ∉ body)
  (Hpos : pos s = Int (len pre)) :
  num_parameter s
  = (match WhitespaceInt.from_whitespace body with
     | Ok v => Ok (len pre + len body, v)
     | Raise e => Raise e
     end, s).
Proof.
  unfold num_parameter, bind, gets, int_pos, lift, ret. rewrite Hpos.
  rewrite (find_terminator (code s) pre body post Hcode Hnot).
  assert (0 < len body) by (destruct body; [done | unfold len; simpl; lia]).
  destruct (Z.eqb_spec (len pre + len body) (len pre)) as [Heq|_]; [lia|].
  rewrite (slice_segment (code s) pre body (LF :: post)
             (len pre) (len pre + len body) Hcode eq_refl eq_refl).
  by destruct (WhitespaceInt.from_whitespace body).
Qed.

Lemma num_parameter_decodes_witness :
  num_parameter push_five = (Ok (6, 5), push_five).
Proof.
  apply (num_parameter_decodes push_five [SPACE; SPACE]
           [SPACE; TAB; SPACE; TAB] [LF; LF; LF] eq_refl).
  - discriminate.
  - vm_compute. intros H. repeat (apply elem_of_cons in H as [H|H]; [discriminate|]).
    by apply elem_of_nil in H.
  - reflexivity.
Defined.

(** X8: a terminated label is read with its terminator: the name
    [label_parameter] answers is the body followed by the line-feed, and
    the offset is the one just after that line-feed. *)
Theorem label_parameter_decodes (s : Interpreter) (pre name post : str)
  (Hcode : code s = pre ++ name ++ LF :: post) (Hnot : LF ∉ name)
  (Hpos : pos s = Int (len pre)) :
  label_parameter s = (Ok (len pre + len name + 1, name ++ [LF]), s).
Proof.
  unfold label_parameter, bind, gets, int_pos, ret. rewrite Hpos.
  rewrite (find_terminator (code s) pre name post Hcode Hnot).
  rewrite (slice_segment (code s) pre (name ++ [LF]) post
             (len pre) (len pre + len name + 1)).
  - reflexivity.
  - rewrite Hcode. by rewrite <- app_assoc.
  - reflexivity.
  - rewrite len_app. change (len [LF]) with 1. lia.
Qed.

Lemma label_parameter_decodes_witness :
  label_parameter label_at_3 = (Ok (6, [SPACE; TAB; LF]), label_at_3).
Proof.
  apply (label_parameter_decodes label_at_3 [LF; SPACE; SPACE]
           [SPACE; TAB] [LF; LF; LF] eq_refl).
  - intros H. repeat (apply elem_of_cons in H as [H|H]; [discriminate|]).
    by apply elem_of_nil in H.
  - reflexivity.
Defined.

(** ** The token dispatcher *)

Lemma imp_lookup_Some (token : str) (imp : imp_table) key value :
  imp_lookup token imp = Some (key, value) ->
  key = token /\ (key, value) ∈ imp.
Proof.
  induction imp as [|[k v] imp IH]; simpl; [done|].
  case_bool_decide as Hk.
  - intros [= <- <-]. split; [done | apply list_elem_of_here].
  - intros Hl. destruct (IH Hl) as [-> Hin].
    split; [done | by apply list_elem_of_further].
Qed.

Lemma imp_lookup_None (token : str) (imp : imp_table) :
  imp_mem token imp = false -> imp_lookup token imp = None.
Proof.
  unfold imp_mem. induction imp as [|[k v] imp IH]; simpl; [done|].
  case_bool_decide; simpl; [done | exact IH].
Qed.

(** X9: a command that [get_command] accepts is an entry of the table
    whose key is the one- or two-character text at the offset, the
    one-character text being taken whenever it is a key; the offset moves
    by the length of that key and nothing else changes. When it refuses,
    with [KeyError] (or [TypeError] on a float offset), the state is
    untouched. *)
Theorem get_command_sound (imp : imp_table) (s s' : Interpreter)
  (r : result unit) (Hrun : get_command imp s = (r, s')) :
  match r with
  | Ok _ =>
      exists p key value,
        pos s = Int p /\ (key, value) ∈ imp
        /\ (key = slice (code s) p (p + 1) \/ key = slice (code s) p (p + 2))
        /\ (imp_mem (slice (code s) p (p + 1)) imp = true ->
            key = slice (code s) p (p + 1))
        /\ s' = set_pos (Int (p + len key)) (set_command value s)
  | Raise e => s' = s /\ (e = KeyError \/ e = TypeError)
  end.
Proof.
  revert Hrun. unfold get_command, next_token, bind, int_pos, gets, ret.
  destruct (pos s) as [p|] eqn:Hp.
  2: { intros [= <- <-]. split; [done | by right]. }
  destruct (imp_lookup _ imp) as [[key value]|] eqn:Hl.
  2: { intros [= <- <-]. split; [done | by left]. }
  unfold modify, advance, modify. cbn [pos set_command]. rewrite Hp.
  intros [= <- <-]. destruct (imp_lookup_Some _ _ _ _ Hl) as [Hkey Hin].
  exists p, key, value. split; [done|]. split; [done|].
  split; [|split; [|done]].
  - rewrite Hkey. destruct (negb _); auto.
  - intros Hmem. rewrite Hkey. by rewrite Hmem.
Qed.

Lemma get_command_sound_witness :
  exists p key value,
    pos at_swap = Int p /\ (key, value) ∈ Stack.STACK_IMP
    /\ (key = slice (code at_swap) p (p + 1)
        \/ key = slice (code at_swap) p (p + 2))
    /\ (imp_mem (slice (code at_swap) p (p + 1)) Stack.STACK_IMP = true ->
        key = slice (code at_swap) p (p + 1))
    /\ set_pos (Int 3) (set_command "swap" at_swap)
       = set_pos (Int (p + len key)) (set_command value at_swap).
Proof.
  apply (get_command_sound Stack.STACK_IMP at_swap
           (set_pos (Int 3) (set_command "swap" at_swap)) (Ok tt)).
  reflexivity.
Defined.

Lemma slice_past_end {A} (c : list A) (p q : Z) :
  len c <= p -> slice c p q = [].
Proof.
  intros Hp. unfold slice. pose proof (len_nonneg c).
  assert (Hc : clamp (len c) p = len c).
  { unfold clamp. destruct (Z.ltb_spec p 0); lia. }
  rewrite Hc. unfold len at 3. rewrite Nat2Z.id.
  rewrite drop_all. by rewrite take_nil.
Qed.

(** X10: where the program stops short of a command, [get_command]
    raises [KeyError] and leaves the state as it is, for any table that
    has no empty key. *)
Theorem get_command_at_end (imp : imp_table) (s : Interpreter) (p : Z)
  (Hkeys : Forall (fun kv => fst kv <> []) imp)
  (Hpos : pos s = Int p) (Hend : len (code s) <= p) :
  get_command imp s = (Raise KeyError, s).
Proof.
  assert (Hmem : imp_mem [] imp = false).
  { unfold imp_mem. induction Hkeys as [|kv imp Hkv _ IH]; simpl; [done|].
    rewrite IH. by rewrite bool_decide_eq_false_2. }
  unfold get_command, next_token, bind, int_pos, gets, ret. rewrite Hpos.
  rewrite !slice_past_end by done. rewrite Hmem. simpl.
  by rewrite (imp_lookup_None [] imp Hmem).
Qed.

Lemma get_command_at_end_witness :
  get_command Stack.STACK_IMP at_end = (Raise KeyError, at_end).
Proof.
  apply (get_command_at_end Stack.STACK_IMP at_end 1).
  - unfold Stack.STACK_IMP. repeat (apply Forall_cons; split; [done|]).
    by apply Forall_nil.
  - reflexivity.
  - vm_compute. discriminate.
Defined.

(** ** More on the stack family *)

Lemma getitem_from_top {A} (below above : list A) (x : A) :
  getitem (below ++ [x] ++ above) (- len above - 1) = Ok x.
Proof.
  unfold getitem. pose proof (len_nonneg above). pose proof (len_nonneg below).
  destruct (Z.ltb_spec (- len above - 1) 0); [|lia].
  rewrite !len_app. change (len [x]) with 1.
  replace (- len above - 1 + (len below + (1 + len above))) with (len below)
    by lia.
  destruct (Z.ltb_spec (len below) 0); [lia|].
  destruct (Z.leb_spec (len below + (1 + len above)) (len below)); [lia|].
  simpl. unfold len at 1. rewrite Nat2Z.id.
  by rewrite list_lookup_middle.
Qed.

(** X11: [duplicate_nth n] pushes a copy of the element [n] places below
    the top and leaves the rest as it is; an [n] at or beyond the size is
    a [ValueError], a negative [n] an [IndexError], and in both cases the
    stack is untouched. *)
Theorem duplicate_nth_depth (s : Interpreter) (n : Z) :
  (forall below x above,
     stack s = below ++ [x] ++ above -> n = len above ->
     Stack.duplicate_nth n s = (Ok tt, set_stack (stack s ++ [x]) s))
  /\ (len (stack s) <= n -> Stack.duplicate_nth n s = (Raise ValueError, s))
  /\ (n < 0 -> Stack.duplicate_nth n s = (Raise IndexError, s)).
Proof.
  unfold Stack.duplicate_nth, bind, gets, stack_size, lift.
  split; [|split].
  - intros below x above Hs ->. rewrite Hs.
    pose proof (len_nonneg above). pose proof (len_nonneg below).
    rewrite !len_app. change (len [x]) with 1.
    destruct (Z.ltb_spec (len below + (1 + len above) - 1) (len above)); [lia|].
    destruct (Z.ltb_spec (len above) 0); [lia|].
    rewrite Hs, getitem_from_top. by rewrite stack_append_eq, Hs.
  - intros Hn. destruct (Z.ltb_spec (len (stack s) - 1) n); [done | lia].
  - intros Hn. pose proof (len_nonneg (stack s)).
    destruct (Z.ltb_spec (len (stack s) - 1) n); [lia|].
    destruct (Z.ltb_spec n 0); [done | lia].
Qed.

Lemma duplicate_nth_depth_witness :
  Stack.duplicate_nth 2 stack_123
  = (Ok tt, set_stack (stack stack_123 ++ [1]) stack_123)
  /\ Stack.duplicate_nth 3 stack_123 = (Raise ValueError, stack_123)
  /\ Stack.duplicate_nth (-1) stack_123 = (Raise IndexError, stack_123).
Proof.
  split; [|split].
  - apply (proj1 (duplicate_nth_depth stack_123 2) [] 1 [2; 3]); reflexivity.
  - apply (proj1 (proj2 (duplicate_nth_depth stack_123 3))).
    vm_compute. discriminate.
  - apply (proj2 (proj2 (duplicate_nth_depth stack_123 (-1)))). lia.
Defined.

(** X12: [swap] is its own inverse: two swaps in a row give back the
    state they started from. *)
Theorem swap_twice (s : Interpreter) (rest : list Z) (b a : Z)
  (Hs : stack s = rest ++ [b; a]) :
  bind Stack.swap (fun _ => Stack.swap) s = (Ok tt, s).
Proof.
  rewrite (bind_ok _ _ s tt (set_stack (rest ++ [a; b]) s))
    by (by apply swap_two).
  rewrite (swap_two (set_stack (rest ++ [a; b]) s) rest a b) by reflexivity.
  cbn [set_stack stack heap pos code inp input output loading instruction
       command labels return_positions].
  rewrite <- Hs. by destruct s.
Qed.

Lemma swap_twice_witness :
  bind Stack.swap (fun _ => Stack.swap) stack_12 = (Ok tt, stack_12).
Proof. apply (swap_twice stack_12 [] 1 2). reflexivity. Defined.

Lemma nonempty_snoc {A} (l : list A) :
  l <> [] -> exists l' y, l = l' ++ [y].
Proof. destruct l as [|y l' _] using rev_ind; [done | by exists l', y]. Qed.

Lemma duplicate_top_eq s l y :
  stack s = l ++ [y] ->
  Stack.duplicate_nth 0 s = (Ok tt, set_stack (stack s ++ [y]) s).
Proof.
  intros Hs. unfold Stack.duplicate_nth, bind, gets, stack_size, lift.
  assert (Hlen : len (stack s) = len l + 1) by (by rewrite Hs, len_app).
  rewrite Hlen. pose proof (len_nonneg l).
  destruct (Z.ltb_spec (len l + 1 - 1) 0); [lia|].
  change (0 <? 0) with false. cbv beta iota.
  assert (Hget : getitem (stack s) (- 0 - 1) = Ok y).
  { rewrite Hs. exact (getitem_from_top l [] y). }
  rewrite Hget. apply stack_append_eq.
Qed.

(** X13: [discard_top] undoes a push: after [push_num x], and after
    duplicating the top of a non-empty stack, it gives back the state
    from before. *)
Theorem discard_top_undoes_push (s : Interpreter) :
  (forall x,
     bind (Stack.push_num x) (fun _ => Stack.discard_top) s = (Ok tt, s))
  /\ (stack s <> [] ->
      bind (Stack.duplicate_nth 0) (fun _ => Stack.discard_top) s = (Ok tt, s)).
Proof.
  assert (Hpop : forall x,
             Stack.discard_top (set_stack (stack s ++ [x]) s) = (Ok tt, s)).
  { intros x. unfold Stack.discard_top.
    rewrite (bind_ok _ _ _ x s).
    - reflexivity.
    - rewrite (stack_pop_snoc _ (stack s) x) by reflexivity.
      by rewrite set_stack_twice, set_stack_same. }
  split.
  - intros x. by rewrite (bind_ok _ _ s tt (set_stack (stack s ++ [x]) s)).
  - intros Hne. destruct (nonempty_snoc (stack s) Hne) as (l & y & Hs).
    rewrite (bind_ok _ _ s tt (set_stack (stack s ++ [y]) s)).
    + apply Hpop.
    + by apply (duplicate_top_eq s l y).
Qed.

Lemma discard_top_undoes_push_witness :
  bind (Stack.duplicate_nth 0) (fun _ => Stack.discard_top) stack_12
  = (Ok tt, stack_12).
Proof.
  apply (proj2 (discard_top_undoes_push stack_12)). discriminate.
Defined.

(** ** More on the arithmetic family *)

(** X14: with [a] on top of [b], [add], [sub] and [mul] replace the two
    by [b + a], [b - a] and [b * a]: the second element is the left
    operand. *)
Theorem arithmetic_operands (s : Interpreter) (rest : list Z) (b a : Z)
  (Hs : stack s = rest ++ [b; a]) :
  Arithmetic.add s = (Ok tt, set_stack (rest ++ [b + a]) s)
  /\ Arithmetic.sub s = (Ok tt, set_stack (rest ++ [b - a]) s)
  /\ Arithmetic.mul s = (Ok tt, set_stack (rest ++ [b * a]) s).
Proof.
  unfold Arithmetic.add, Arithmetic.sub, Arithmetic.mul.
  by rewrite !(pop_two s rest b a) by done.
Qed.

Lemma arithmetic_operands_witness :
  Arithmetic.add stack_7_m2 = (Ok tt, set_stack ([] ++ [7 + -2]) stack_7_m2)
  /\ Arithmetic.sub stack_7_m2 = (Ok tt, set_stack ([] ++ [7 - -2]) stack_7_m2)
  /\ Arithmetic.mul stack_7_m2 = (Ok tt, set_stack ([] ++ [7 * -2]) stack_7_m2).
Proof. apply (arithmetic_operands stack_7_m2 [] 7 (-2)). reflexivity. Defined.

Lemma pop_two_underflow s a {B} (k : Z -> Z -> M B) :
  stack s = [a] ->
  bind stack_pop (fun x => bind stack_pop (fun y => k x y)) s
  = (Raise IndexError, set_stack [] s).
Proof.
  intros Hs. rewrite (bind_ok _ _ s a (set_stack [] s)).
  - apply bind_raise. by apply stack_pop_nil.
  - by apply (stack_pop_snoc s []).
Qed.

(** X15: an arithmetic operator run on a stack of one element fails with
    a stack underflow and the element is gone: the operand popped first
    is not put back. *)
Theorem arithmetic_underflow (s : Interpreter) (a : Z) (Hs : stack s = [a]) :
  Arithmetic.add s = (Raise IndexError, set_stack [] s)
  /\ Arithmetic.sub s = (Raise IndexError, set_stack [] s)
  /\ Arithmetic.mul s = (Raise IndexError, set_stack [] s)
  /\ Arithmetic.floordiv s = (Raise IndexError, set_stack [] s)
  /\ Arithmetic.mod_ s = (Raise IndexError, set_stack [] s).
Proof.
  unfold Arithmetic.add, Arithmetic.sub, Arithmetic.mul,
    Arithmetic.floordiv, Arithmetic.mod_.
  by rewrite !(pop_two_underflow s a) by done.
Qed.

Lemma arithmetic_underflow_witness :
  Arithmetic.add stack_7 = (Raise IndexError, set_stack [] stack_7)
  /\ Arithmetic.sub stack_7 = (Raise IndexError, set_stack [] stack_7)
  /\ Arithmetic.mul stack_7 = (Raise IndexError, set_stack [] stack_7)
  /\ Arithmetic.floordiv stack_7 = (Raise IndexError, set_stack [] stack_7)
  /\ Arithmetic.mod_ stack_7 = (Raise IndexError, set_stack [] stack_7).
Proof. apply (arithmetic_underflow stack_7 7). reflexivity. Defined.

(** ** The heap family *)

Lemma heap_store_eq s rest b a :
  stack s = rest ++ [b; a] ->
  Heap.store s = (Ok tt, set_heap (<[b := a]> (heap s)) (set_stack rest s)).
Proof.
  intros Hs. unfold Heap.store. by rewrite (pop_two s rest b a).
Qed.

Lemma heap_push_eq s rest a :
  stack s = rest ++ [a] ->
  Heap.push s
  = match heap s !! a with
    | Some v => (Ok tt, set_stack (rest ++ [v]) s)
    | None => (Raise KeyError, set_stack rest s)
    end.
Proof.
  intros Hs. unfold Heap.push.
  rewrite (bind_ok _ _ s a (set_stack rest s)) by (by apply stack_pop_snoc).
  unfold bind, gets. cbn [heap set_stack].
  by destruct (heap s !! a).
Qed.

(** X16: what [store] writes, [push] reads back: with a value on top of
    an address, storing, pushing the address again and reading leaves the
    value where the two were; a read at another address gives what was
    there before the store. *)
Theorem store_then_push (s : Interpreter) (rest : list Z) (addr v : Z)
  (Hs : stack s = rest ++ [addr; v]) :
  bind Heap.store
    (fun _ => bind (Stack.push_num addr) (fun _ => Heap.push)) s
  = (Ok tt, set_stack (rest ++ [v]) (set_heap (<[addr := v]> (heap s)) s))
  /\ forall other w,
       other <> addr -> heap s !! other = Some w ->
       bind Heap.store
         (fun _ => bind (Stack.push_num other) (fun _ => Heap.push)) s
       = (Ok tt, set_stack (rest ++ [w]) (set_heap (<[addr := v]> (heap s)) s)).
Proof.
  split.
  - rewrite (bind_ok _ _ _ _ _ (heap_store_eq s rest addr v Hs)).
    unfold bind at 1, Stack.push_num. rewrite stack_append_eq.
    rewrite (heap_push_eq _ rest addr) by reflexivity.
    cbn [heap set_heap set_stack]. by rewrite lookup_insert_eq.
  - intros other w Hne Hw.
    rewrite (bind_ok _ _ _ _ _ (heap_store_eq s rest addr v Hs)).
    unfold bind at 1, Stack.push_num. rewrite stack_append_eq.
    rewrite (heap_push_eq _ rest other) by reflexivity.
    cbn [heap set_heap set_stack].
    by rewrite lookup_insert_ne, Hw.
Qed.

Lemma store_then_push_witness :
  bind Heap.store
    (fun _ => bind (Stack.push_num 10) (fun _ => Heap.push)) stack_10_42
  = (Ok tt, set_stack ([] ++ [42])
              (set_heap (<[10 := 42]> (heap stack_10_42)) stack_10_42)).
Proof.
  apply (proj1 (store_then_push stack_10_42 [] 10 42 eq_refl)).
Defined.

(** X17: reading an address that was never stored raises [KeyError];
    the address has been popped by then and is not put back. *)
Theorem push_unset_address (s : Interpreter) (rest : list Z) (a : Z)
  (Hs : stack s = rest ++ [a]) (Hunset : heap s !! a = None) :
  Heap.push s = (Raise KeyError, set_stack rest s).
Proof. rewrite (heap_push_eq s rest a Hs). by rewrite Hunset. Qed.

Lemma push_unset_address_witness :
  Heap.push stack_7 = (Raise KeyError, set_stack [] stack_7).
Proof. apply (push_unset_address stack_7 [] 7); reflexivity. Defined.

(** ** More on input and output *)

(** X18: [input_char] stores the code point of the front input character
    at the popped address and consumes that character; on an empty input
    it raises [IndexError] before touching the stack. *)
Theorem input_char_stores (s : Interpreter) :
  (forall a more rest b,
     input s = a :: more -> stack s = rest ++ [b] ->
     IO.input_char s
     = (Ok tt, set_heap (<[b := a]> (heap s))
                 (set_stack rest (set_input more s))))
  /\ (input s = [] -> IO.input_char s = (Raise IndexError, s)).
Proof.
  unfold IO.input_char. split.
  - intros a more rest b Hin Hs.
    rewrite (bind_ok _ _ s a (set_input more s))
      by (unfold IO.input_pop_front; by rewrite Hin).
    by rewrite (bind_ok _ _ _ b (set_stack rest (set_input more s)))
      by (by apply stack_pop_snoc).
  - intros Hin. apply bind_raise. unfold IO.input_pop_front. by rewrite Hin.
Qed.

Lemma input_char_stores_witness :
  IO.input_char stack_10_input_AB
  = (Ok tt, set_heap (<[10 := 65]> (heap stack_10_input_AB))
              (set_stack [] (set_input [66] stack_10_input_AB)))
  /\ IO.input_char stack_10 = (Raise IndexError, stack_10).
Proof.
  split.
  - apply (proj1 (input_char_stores stack_10_input_AB) 65 [66] [] 10);
      reflexivity.
  - apply (proj2 (input_char_stores stack_10)). reflexivity.
Defined.

Lemma list_index_found (x : char) (line : list char) : forall more,
  x ∉ line -> list_index x (line ++ x :: more) = Ok (len line).
Proof.
  induction line as [|y line IH]; intros more Hnot; simpl.
  - by rewrite Z.eqb_refl.
  - apply not_elem_of_cons in Hnot as [Hy Hline].
    destruct (Z.eqb_spec y x) as [->|_]; [done|].
    rewrite IH by done. f_equal. unfold len. simpl length. lia.
Qed.

Lemma list_index_absent (x : char) (l : list char) :
  x ∉ l -> list_index x l = Raise ValueError.
Proof.
  induction l as [|y l IH]; intros Hnot; simpl; [done|].
  apply not_elem_of_cons in Hnot as [Hy Hl].
  destruct (Z.eqb_spec y x) as [->|_]; [done|]. by rewrite IH.
Qed.

(** X19: [input_num] pops the address first and then reads one line. A
    line that [int] accepts is consumed with its line-feed and its value
    stored at the address; a line that [int] refuses is consumed all the
    same and nothing is stored; with no line-feed in the input the input
    is left whole. In the two failing cases the error is [ValueError] and
    the address is gone from the stack. *)
Theorem input_num_reads_a_line (B : Builtins) (s : Interpreter)
  (rest : list Z) (b : Z) (Hs : stack s = rest ++ [b]) :
  (forall line more v,
     input s = line ++ LF :: more -> LF ∉ line ->
     int_of_str line = Some v ->
     IO.input_num s
     = (Ok tt, set_heap (<[b := v]> (heap s))
                 (set_input more (set_stack rest s))))
  /\ (forall line more,
        input s = line ++ LF :: more -> LF ∉ line ->
        int_of_str line = None ->
        IO.input_num s
        = (Raise ValueError, set_input more (set_stack rest s)))
  /\ (LF ∉ input s ->
      IO.input_num s = (Raise ValueError, set_stack rest s)).
Proof.
  assert (Hline : forall line more,
             input s = line ++ LF :: more -> LF ∉ line ->
             IO.input_num s
             = match int_of_str line with
               | Some v =>
                   (Ok tt, set_heap (<[b := v]> (heap s))
                             (set_input more (set_stack rest s)))
               | None => (Raise ValueError, set_input more (set_stack rest s))
               end).
  { intros line more Hin Hnot. unfold IO.input_num.
    rewrite (bind_ok _ _ s b (set_stack rest s)) by (by apply stack_pop_snoc).
    unfold bind, gets, lift, modify. cbn [input set_stack]. rewrite Hin.
    rewrite (list_index_found LF line more Hnot).
    unfold len. rewrite Nat2Z.id.
    replace (Z.to_nat (Z.of_nat (length line) + 1)) with (S (length line))
      by lia.
    rewrite take_app_length.
    replace (drop (S (length line)) (line ++ LF :: more)) with more.
    2: { rewrite cons_middle, app_assoc.
         replace (S (length line)) with (length (line ++ [LF]))
           by (rewrite length_app; simpl; lia).
         by rewrite drop_app_length. }
    by destruct (int_of_str line). }
  split; [|split].
  - intros line more v Hin Hnot Hv. by rewrite (Hline line more), Hv.
  - intros line more Hin Hnot Hv. by rewrite (Hline line more), Hv.
  - intros Hnot. unfold IO.input_num.
    rewrite (bind_ok _ _ s b (set_stack rest s)) by (by apply stack_pop_snoc).
    unfold bind, gets, lift. cbn [input set_stack].
    by rewrite (list_index_absent LF (input s) Hnot).
Qed.

Lemma input_num_reads_a_line_witness :
  @IO.input_num int_12 stack_10_input_12
  = (Ok tt, set_heap (<[10 := 12]> (heap stack_10_input_12))
              (set_input [65] (set_stack [] stack_10_input_12)))
  /\ @IO.input_num no_int stack_10_input_12
     = (Raise ValueError, set_input [65] (set_stack [] stack_10_input_12))
  /\ @IO.input_num int_12 stack_10_input_AB
     = (Raise ValueError, set_stack [] stack_10_input_AB).
Proof.
  assert (Hline : LF ∉ [49; 50]).
  { intros H. repeat (apply elem_of_cons in H as [H|H]; [discriminate|]).
    by apply elem_of_nil in H. }
  split; [|split].
  - by apply (proj1 (input_num_reads_a_line int_12 stack_10_input_12 [] 10
                       eq_refl) [49; 50] [65] 12).
  - by apply (proj1 (proj2 (input_num_reads_a_line no_int stack_10_input_12
                              [] 10 eq_refl)) [49; 50] [65]).
  - apply (proj2 (proj2 (input_num_reads_a_line int_12 stack_10_input_AB
                           [] 10 eq_refl))).
    intros H. repeat (apply elem_of_cons in H as [H|H]; [discriminate|]).
    by apply elem_of_nil in H.
Defined.

(** ** The flow-control family *)

Lemma flow_keys_two_chars (c : char) :
  imp_mem [c] FlowControl.FLOW_IMP = false.
Proof.
  unfold imp_mem, FlowControl.FLOW_IMP. simpl.
  by rewrite !bool_decide_eq_false_2 by discriminate.
Qed.

(** Decoding of a flow-control instruction up to its command. *)
Lemma flow_decode `{Builtins} s pre k1 k2 post value :
  code s = pre ++ [LF; k1; k2] ++ post -> pos s = Int (len pre) ->
  imp_lookup [k1; k2] FlowControl.FLOW_IMP = Some ([k1; k2], value) ->
  step s
  = FlowControl.parse
      (set_pos (Int (len pre + 1)) (set_instruction "FlowControl" s))
  /\ get_command FlowControl.FLOW_IMP
       (set_pos (Int (len pre + 1)) (set_instruction "FlowControl" s))
     = (Ok tt, set_pos (Int (len pre + 3))
                 (set_command value (set_instruction "FlowControl" s))).
Proof.
  intros Hc Hp Hl. split.
  - rewrite (step_eq s (len pre) [LF] (slice (code s) (len pre) (len pre + 2))
               [LF] "FlowControl" Hp).
    + by rewrite dispatch_flow.
    + apply (slice_segment _ pre [LF] ([k1; k2] ++ post)); [by rewrite Hc|done..].
    + reflexivity.
    + reflexivity.
  - rewrite (get_command_eq _ _ (len pre + 1) [k1] [k1; k2] [k1; k2] value).
    + change (len [k1; k2]) with 2.
      replace (len pre + 1 + 2) with (len pre + 3) by lia. reflexivity.
    + reflexivity.
    + apply (slice_segment _ (pre ++ [LF]) [k1] ([k2] ++ post)).
      * simpl. rewrite Hc. by rewrite <- app_assoc.
      * by rewrite len_app.
      * reflexivity.
    + apply (slice_segment _ (pre ++ [LF]) [k1; k2] post).
      * simpl. rewrite Hc. by rewrite <- app_assoc.
      * by rewrite len_app.
      * reflexivity.
    + by rewrite flow_keys_two_chars.
Qed.

(** The label read by a flow-control instruction whose command has been
    decoded. *)
Lemma flow_label s pre k1 k2 name post value :
  code s = pre ++ [LF; k1; k2] ++ name ++ LF :: post -> LF ∉ name ->
  label_parameter
    (set_pos (Int (len pre + 3))
       (set_command value (set_instruction "FlowControl" s)))
  = (Ok (len pre + 3 + len name + 1, name ++ [LF]),
     set_pos (Int (len pre + 3))
       (set_command value (set_instruction "FlowControl" s))).
Proof.
  intros Hc Hnot.
  assert (Hc' : code s = (pre ++ [LF; k1; k2]) ++ name ++ LF :: post)
    by (rewrite Hc; by rewrite <- app_assoc).
  assert (Hlen : len (pre ++ [LF; k1; k2]) = len pre + 3)
    by (by rewrite len_app).
  unfold label_parameter, bind, gets, int_pos, ret.
  cbn [pos code set_pos set_command set_instruction].
  rewrite <- Hlen.
  rewrite (find_terminator (code s) _ name post Hc' Hnot).
  rewrite (slice_segment (code s) (pre ++ [LF; k1; k2]) (name ++ [LF]) post
             _ (len (pre ++ [LF; k1; k2]) + len name + 1)).
  - reflexivity.
  - rewrite Hc'. by rewrite <- (app_assoc name).
  - reflexivity.
  - rewrite (len_app name). change (len [LF]) with 1. lia.
Qed.

(** X20: [mark_label] met in the discovery phase binds the name, kept
    with its terminator, to the offset just after the label, where the
    pass goes on; a name that is bound already is a [ValueError]. Met in
    the execution phase the instruction is stepped over and the label
    table is left alone. *)
Theorem mark_label_step (B : Builtins) (s : Interpreter)
  (pre name post : str)
  (Hcode : code s = pre ++ [LF; SPACE; SPACE] ++ name ++ LF :: post)
  (Hnot : LF ∉ name) (Hpos : pos s = Int (len pre)) :
  (loading s = true -> labels s !! (name ++ [LF]) = None ->
     step s
     = (Ok tt,
        set_pos (Int (len pre + 3 + len name + 1))
          (set_labels
             (<[name ++ [LF] := Int (len pre + 3 + len name + 1)]> (labels s))
             (set_command "mark_label" (set_instruction "FlowControl" s)))))
  /\ (loading s = true -> is_Some (labels s !! (name ++ [LF])) ->
      step s
      = (Raise ValueError,
         set_pos (Int (len pre + 3))
           (set_command "mark_label" (set_instruction "FlowControl" s))))
  /\ (loading s = false ->
      step s
      = (Ok tt,
         set_pos (Int (len pre + 3 + len name + 1))
           (set_command "mark_label" (set_instruction "FlowControl" s)))).
Proof.
  destruct (flow_decode s pre SPACE SPACE (name ++ LF :: post) "mark_label"
              Hcode Hpos eq_refl) as [Hstep Hcmd].
  pose proof (flow_label s pre SPACE SPACE name post "mark_label" Hcode Hnot)
    as Hlabel.
  assert (Hgen :
            step s
            = bind (when (loading s) (FlowControl.mark_label (name ++ [LF])))
                (fun _ => modify (set_pos (Int (len pre + 3 + len name + 1))))
                (set_pos (Int (len pre + 3))
                   (set_command "mark_label"
                      (set_instruction "FlowControl" s)))).
  { rewrite Hstep. unfold FlowControl.parse.
    rewrite (bind_ok _ _ _ _ _ Hcmd).
    unfold bind at 1, gets at 1. unfold bind at 1, gets at 1.
    cbn [command loading set_pos set_command set_instruction named
         String.eqb Ascii.eqb Bool.eqb].
    by rewrite (bind_ok _ _ _ _ _ Hlabel). }
  rewrite Hgen.
  split; [|split].
  - intros Hl Hnone. rewrite Hl. cbn [when].
    unfold FlowControl.mark_label, bind, gets, modify.
    cbn [labels pos set_pos set_command set_instruction FlowControl.pos_plus].
    rewrite Hnone. rewrite len_app. change (len [LF]) with 1.
    cbn [labels pos set_pos set_command set_instruction set_labels
         FlowControl.pos_plus].
    by rewrite Z.add_assoc.
  - intros Hl [p Hsome]. rewrite Hl. cbn [when].
    unfold FlowControl.mark_label, bind, gets.
    cbn [labels pos set_pos set_command set_instruction].
    by rewrite Hsome.
  - intros Hl. rewrite Hl. reflexivity.
Qed.

Lemma mark_label_step_witness :
  @step no_int mark_space
  = (Ok tt,
     set_pos (Int 5)
       (set_labels (<[[SPACE; LF] := Int 5]> (labels mark_space))
          (set_command "mark_label" (set_instruction "FlowControl" mark_space)))).
Proof.
  apply (proj1 (mark_label_step no_int mark_space [] [SPACE] EXIT eq_refl
                  ltac:(intros H; apply elem_of_cons in H as [H|H];
                          [discriminate | by apply elem_of_nil in H])
                  eq_refl));
    reflexivity.
Defined.

(** The two conditional jumps, [jump_lt_zero] for [neg] and [jump_zero]
    otherwise. *)
Lemma conditional_jump_step_aux (B : Builtins) (s : Interpreter)
  (neg : bool) (pre name post : str) (rest : list Z) (v : Z) :
  code s = pre ++ [LF; TAB; if neg then TAB else SPACE] ++ name ++ LF :: post ->
  LF ∉ name -> pos s = Int (len pre) -> loading s = false ->
  stack s = rest ++ [v] ->
  step s
  = if (if neg then v <? 0 else v =? 0) then
      match labels s !! (name ++ [LF]) with
      | Some target =>
          (Ok tt, set_pos target
                    (set_stack rest
                       (set_command
                          (if neg then "jump_lt_zero" else "jump_zero")
                          (set_instruction "FlowControl" s))))
      | None =>
          (Raise KeyError,
           set_pos (Int (len pre + 3))
             (set_stack rest
                (set_command (if neg then "jump_lt_zero" else "jump_zero")
                   (set_instruction "FlowControl" s))))
      end
    else
      (Ok tt, set_pos (Int (len pre + 3 + len name + 1))
                (set_stack rest
                   (set_command (if neg then "jump_lt_zero" else "jump_zero")
                      (set_instruction "FlowControl" s)))).
Proof.
  intros Hcode Hnot Hpos Hl Hs.
  assert (Hlook : imp_lookup [TAB; if neg then TAB else SPACE]
                    FlowControl.FLOW_IMP
                  = Some ([TAB; if neg then TAB else SPACE],
                          if neg then "jump_lt_zero"%string
                          else "jump_zero"%string))
    by (by destruct neg).
  destruct (flow_decode s pre TAB _ (name ++ LF :: post) _
              Hcode Hpos Hlook) as [Hstep Hcmd].
  pose proof (flow_label s pre TAB _ name post
                (if neg then "jump_lt_zero"%string else "jump_zero"%string)
                Hcode Hnot) as Hlabel.
  rewrite Hstep. unfold FlowControl.parse.
  rewrite (bind_ok _ _ _ _ _ Hcmd).
  unfold bind at 1, gets at 1. unfold bind at 1, gets at 1.
  cbn [command loading set_pos set_command set_instruction].
  rewrite Hl.
  destruct neg;
    cbn [named String.eqb Ascii.eqb Bool.eqb negb];
    rewrite (bind_ok _ _ _ _ _ Hlabel);
    (rewrite (bind_ok _ _ _ v
                (set_stack rest
                   (set_pos (Int (len pre + 3))
                      (set_command _ (set_instruction "FlowControl" s)))))
       by (by apply stack_pop_snoc));
    (match goal with
     | |- (if ?c then _ else _) _ = _ => destruct c; [|reflexivity]
     end);
    unfold FlowControl.jump, bind, gets;
    cbn [labels set_stack set_pos set_command set_instruction];
    by destruct (labels s !! (name ++ [LF])).
Qed.

(** X21: in the execution phase [jump_zero] and [jump_lt_zero] pop one
    value; when the test on it holds (zero, resp. negative) they go to
    the offset bound to the label, or raise [KeyError] if the label is
    unbound; when it fails they go on after the label, and the label is
    not looked up, so an unbound label is no error then. *)
Theorem conditional_jump_step (B : Builtins) (s : Interpreter)
  (pre name post : str) (rest : list Z) (v : Z)
  (Hnot : LF ∉ name) (Hpos : pos s = Int (len pre))
  (Hload : loading s = false) (Hstack : stack s = rest ++ [v]) :
  (code s = pre ++ [LF; TAB; SPACE] ++ name ++ LF :: post ->
     step s
     = if v =? 0 then
         match labels s !! (name ++ [LF]) with
         | Some target =>
             (Ok tt, set_pos target
                       (set_stack rest
                          (set_command "jump_zero"
                             (set_instruction "FlowControl" s))))
         | None =>
             (Raise KeyError,
              set_pos (Int (len pre + 3))
                (set_stack rest
                   (set_command "jump_zero"
                      (set_instruction "FlowControl" s))))
         end
       else
         (Ok tt, set_pos (Int (len pre + 3 + len name + 1))
                   (set_stack rest
                      (set_command "jump_zero"
                         (set_instruction "FlowControl" s)))))
  /\ (code s = pre ++ [LF; TAB; TAB] ++ name ++ LF :: post ->
      step s
      = if v <? 0 then
          match labels s !! (name ++ [LF]) with
          | Some target =>
              (Ok tt, set_pos target
                        (set_stack rest
                           (set_command "jump_lt_zero"
                              (set_instruction "FlowControl" s))))
          | None =>
              (Raise KeyError,
               set_pos (Int (len pre + 3))
                 (set_stack rest
                    (set_command "jump_lt_zero"
                       (set_instruction "FlowControl" s))))
          end
        else
          (Ok tt, set_pos (Int (len pre + 3 + len name + 1))
                    (set_stack rest
                       (set_command "jump_lt_zero"
                          (set_instruction "FlowControl" s))))).
Proof.
  split; intros Hcode.
  - by apply (conditional_jump_step_aux B s false pre name post rest v).
  - by apply (conditional_jump_step_aux B s true pre name post rest v).
Qed.

Lemma LF_not_in_space : LF ∉ [SPACE].
Proof.
  intros H. apply elem_of_cons in H as [H|H]; [discriminate|].
  by apply elem_of_nil in H.
Qed.

Lemma conditional_jump_step_witness :
  @step no_int jump_zero_taken
  = (Ok tt, set_pos (Int 5)
              (set_stack []
                 (set_command "jump_zero"
                    (set_instruction "FlowControl" jump_zero_taken))))
  /\ @step no_int jump_zero_skipped
     = (Ok tt, set_pos (Int 5)
                 (set_stack []
                    (set_command "jump_zero"
                       (set_instruction "FlowControl" jump_zero_skipped)))).
Proof.
  split.
  - rewrite (proj1 (conditional_jump_step no_int jump_zero_taken
                      [] [SPACE] EXIT [] 0 LF_not_in_space
                      eq_refl eq_refl eq_refl) eq_refl).
    reflexivity.
  - rewrite (proj1 (conditional_jump_step no_int jump_zero_skipped
                      [] [SPACE] EXIT [] 3 LF_not_in_space
                      eq_refl eq_refl eq_refl) eq_refl).
    reflexivity.
Defined.

(** X22: in the execution phase [call_subroutine] records as return
    address the offset just after its label and goes to the offset bound
    to the label; with the label unbound it raises [KeyError] with the
    return address already on the return stack. [jump] goes to the bound
    offset and records nothing; with the label unbound it raises
    [KeyError]. *)
Theorem call_and_jump_step (B : Builtins) (s : Interpreter)
  (pre name post : str)
  (Hnot : LF ∉ name) (Hpos : pos s = Int (len pre))
  (Hload : loading s = false) :
  (code s = pre ++ [LF; SPACE; TAB] ++ name ++ LF :: post ->
     step s
     = match labels s !! (name ++ [LF]) with
       | Some target =>
           (Ok tt,
            set_pos target
              (set_return_positions
                 (return_positions s ++ [Int (len pre + 3 + len name + 1)])
                 (set_command "call_subroutine"
                    (set_instruction "FlowControl" s))))
       | None =>
           (Raise KeyError,
            set_pos (Int (len pre + 3 + len name + 1))
              (set_return_positions
                 (return_positions s ++ [Int (len pre + 3 + len name + 1)])
                 (set_command "call_subroutine"
                    (set_instruction "FlowControl" s))))
       end)
  /\ (code s = pre ++ [LF; SPACE; LF] ++ name ++ LF :: post ->
      step s
      = match labels s !! (name ++ [LF]) with
        | Some target =>
            (Ok tt, set_pos target
                      (set_command "jump" (set_instruction "FlowControl" s)))
        | None =>
            (Raise KeyError,
             set_pos (Int (len pre + 3))
               (set_command "jump" (set_instruction "FlowControl" s)))
        end).
Proof.
  split; intros Hcode.
  - destruct (flow_decode s pre SPACE TAB (name ++ LF :: post)
                "call_subroutine" Hcode Hpos eq_refl) as [Hstep Hcmd].
    pose proof (flow_label s pre SPACE TAB name post "call_subroutine"
                  Hcode Hnot) as Hlabel.
    rewrite Hstep. unfold FlowControl.parse.
    rewrite (bind_ok _ _ _ _ _ Hcmd).
    unfold bind at 1, gets at 1. unfold bind at 1, gets at 1.
    cbn [command loading set_pos set_command set_instruction named
         String.eqb Ascii.eqb Bool.eqb].
    rewrite Hload. cbn [negb when].
    rewrite (bind_ok _ _ _ _ _ Hlabel).
    unfold FlowControl.call_subroutine, bind, modify, gets.
    cbn [labels pos return_positions set_pos set_command set_instruction
         set_return_positions].
    by destruct (labels s !! (name ++ [LF])).
  - destruct (flow_decode s pre SPACE LF (name ++ LF :: post)
                "jump" Hcode Hpos eq_refl) as [Hstep Hcmd].
    pose proof (flow_label s pre SPACE LF name post "jump" Hcode Hnot)
      as Hlabel.
    rewrite Hstep. unfold FlowControl.parse.
    rewrite (bind_ok _ _ _ _ _ Hcmd).
    unfold bind at 1, gets at 1. unfold bind at 1, gets at 1.
    cbn [command loading set_pos set_command set_instruction named
         String.eqb Ascii.eqb Bool.eqb].
    rewrite Hload. cbn [negb].
    rewrite (bind_ok _ _ _ _ _ Hlabel).
    unfold FlowControl.jump, bind, modify, gets.
    cbn [labels set_pos set_command set_instruction].
    by destruct (labels s !! (name ++ [LF])).
Qed.

Lemma call_and_jump_step_witness :
  @step no_int call_space
  = (Ok tt,
     set_pos (Int 5)
       (set_return_positions [Int 5]
          (set_command "call_subroutine"
             (set_instruction "FlowControl" call_space)))).
Proof.
  rewrite (proj1 (call_and_jump_step no_int call_space [] [SPACE] EXIT
                    LF_not_in_space eq_refl eq_refl) eq_refl).
  reflexivity.
Defined.

(** X23: a return undoes a call: [call_subroutine] of a bound label
    followed at once by [exit_subroutine] gives back the state from
    before the call, offset and return stack included; and
    [exit_subroutine] on an empty return stack raises [SyntaxError] and
    changes nothing. *)
Theorem call_then_return (s : Interpreter) :
  (forall label target,
     labels s !! label = Some target ->
     bind (FlowControl.call_subroutine label)
       (fun _ => FlowControl.exit_subroutine) s
     = (Ok tt, s))
  /\ (return_positions s = [] ->
      FlowControl.exit_subroutine s = (Raise SyntaxError, s)).
Proof.
  split.
  - intros label target Hl.
    unfold FlowControl.call_subroutine, bind, modify, gets.
    cbn [labels set_return_positions]. rewrite Hl.
    unfold FlowControl.exit_subroutine.
    cbn [return_positions set_pos set_return_positions].
    rewrite list_pop_snoc. by destruct s.
  - intros Hr. unfold FlowControl.exit_subroutine. by rewrite Hr.
Qed.

Lemma call_then_return_witness :
  bind (FlowControl.call_subroutine [SPACE; LF])
    (fun _ => FlowControl.exit_subroutine) call_space
  = (Ok tt, call_space)
  /\ FlowControl.exit_subroutine call_space = (Raise SyntaxError, call_space).
Proof.
  split.
  - apply (proj1 (call_then_return call_space) [SPACE; LF] (Int 5)).
    reflexivity.
  - apply (proj2 (call_then_return call_space)). reflexivity.
Defined.

(** ** The control state along a run *)

Lemma wp_bind {A B} (m : M A) (k : A -> M B) Q s :
  wp m (fun r s' => match r with
                    | Ok a => wp (k a) Q s'
                    | Raise e => Q (Raise e) s'
                    end) s ->
  wp (bind m k) Q s.
Proof. unfold wp, bind. by destruct (m s) as [[a|e] s1]. Qed.

Lemma wp_ret {A} (a : A) Q s : Q (Ok a) s -> wp (ret a) Q s.
Proof. done. Qed.
Lemma wp_raise {A} (e : exn) (Q : result A -> _) s : Q (Raise e) s -> wp (raise e) Q s.
Proof. done. Qed.
Lemma wp_gets {A} (f : Interpreter -> A) Q s : Q (Ok (f s)) s -> wp (gets f) Q s.
Proof. done. Qed.
Lemma wp_modify f Q s : Q (Ok tt) (f s) -> wp (modify f) Q s.
Proof. done. Qed.
Lemma wp_lift {A} (r : result A) Q s : Q r s -> wp (lift r) Q s.
Proof. done. Qed.

Lemma wp_int_pos Q s :
  (forall p, pos s = Int p -> Q (Ok p) s) ->
  (pos s = Inf -> Q (Raise TypeError) s) ->
  wp int_pos Q s.
Proof.
  intros H1 H2. unfold wp, int_pos.
  destruct (pos s) as [p|] eqn:Hp; simpl; [by apply H1 | by apply H2].
Qed.

Lemma wp_stack_pop Q s :
  (forall x l, Q (Ok x) (set_stack l s)) ->
  Q (Raise IndexError) s ->
  wp stack_pop Q s.
Proof.
  intros H1 H2. unfold wp, stack_pop.
  destruct (list_pop (stack s)) as [[x l]|]; simpl; [apply H1 | apply H2].
Qed.

Lemma wp_exit_subroutine Q s :
  (forall p l, return_positions s = l ++ [p] ->
               Q (Ok tt) (set_pos p (set_return_positions l s))) ->
  Q (Raise SyntaxError) s ->
  wp FlowControl.exit_subroutine Q s.
Proof.
  intros H1 H2. unfold wp, FlowControl.exit_subroutine.
  destruct (list_pop (return_positions s)) as [[x l]|] eqn:Hp; simpl;
    [|apply H2].
  apply H1. by apply list_pop_Some.
Qed.

Lemma wp_preserves {A} (R : Interpreter -> Interpreter -> Prop) (m : M A) Q s :
  preserves R m -> (forall r s', R s s' -> Q r s') -> wp m Q s.
Proof.
  intros Hm HQ. unfold wp. destruct (m s) as [r s'] eqn:Hms. simpl.
  apply HQ. by eapply Hm.
Qed.

Lemma same_control_refl s : same_control s s.
Proof. by repeat split. Qed.
Lemma same_control_trans s1 s2 s3 : same_control s1 s2 -> same_control s2 s3 -> same_control s1 s3.
Proof. intros (?&?&?&?&?) (?&?&?&?&?). repeat split; congruence. Qed.

Ltac control_side := repeat split; reflexivity.

Ltac handlers :=
  unfold Stack.push_num, Stack.duplicate_nth, Stack.discard_n, Stack.discard_top,
    Stack.swap, Arithmetic.add, Arithmetic.sub, Arithmetic.mul,
    Arithmetic.floordiv, Arithmetic.mod_, Heap.store, Heap.push,
    IO.output_char, IO.output_num, IO.input_char, IO.input_num, console_print, stack_append;
  preserving same_control_refl same_control_trans control_side.

Lemma Stack_handlers_control :
  (forall x, preserves same_control (Stack.push_num x))
  /\ (forall n, preserves same_control (Stack.duplicate_nth n))
  /\ (forall n, preserves same_control (Stack.discard_n n))
  /\ preserves same_control Stack.discard_top
  /\ preserves same_control Stack.swap.
Proof. repeat apply conj; intros; handlers. Qed.

Lemma Arithmetic_handlers_control :
  preserves same_control Arithmetic.add /\ preserves same_control Arithmetic.sub
  /\ preserves same_control Arithmetic.mul
  /\ preserves same_control Arithmetic.floordiv
  /\ preserves same_control Arithmetic.mod_.
Proof. repeat apply conj; handlers. Qed.

Lemma Heap_handlers_control :
  preserves same_control Heap.store /\ preserves same_control Heap.push.
Proof. repeat apply conj; handlers. Qed.

Lemma IO_handlers_control `{Builtins} :
  preserves same_control IO.output_char /\ preserves same_control IO.output_num
  /\ preserves same_control IO.input_char /\ preserves same_control IO.input_num.
Proof. repeat apply conj; handlers. Qed.

Lemma len_slice_le {A} (c : list A) (p q : Z) :
  0 <= p <= len c -> 0 <= p + len (slice c p q) <= len c.
Proof.
  intros Hp. unfold slice. rewrite (clamp_inside (len c) p Hp).
  unfold len in *. rewrite length_take, length_drop. lia.
Qed.

Lemma index_from_range (x : char) (l : str) : forall k,
  index_from x l k = -1 \/ k <= index_from x l k < k + len l.
Proof.
  induction l as [|y l IH]; intros k; simpl; [by left|].
  assert (Hl : len (y :: l) = len l + 1) by (unfold len; simpl length; lia).
  pose proof (len_nonneg l).
  destruct (y =? x); [right; lia|].
  destruct (IH (k + 1)) as [->|?]; [by left | right; lia].
Qed.

Lemma clamp_range n i : 0 <= n -> 0 <= clamp n i <= n.
Proof. intros Hn. unfold clamp. destruct (Z.ltb_spec i 0); lia. Qed.

Lemma find_range (c : str) (x : char) (start : Z) :
  -1 <= find c x start < len c.
Proof.
  unfold find. pose proof (len_nonneg c) as Hc.
  pose proof (clamp_range (len c) start Hc) as Hi.
  set (i := clamp (len c) start) in *.
  assert (Hd : len (drop (Z.to_nat i) c) = len c - i)
    by (unfold len in *; rewrite length_drop; lia).
  destruct (index_from_range x (drop (Z.to_nat i) c) i) as [->|Hr]; lia.
Qed.

Ltac wp_simpl :=
  cbv beta;
  cbn [pos command labels return_positions code loading instruction
       set_pos set_command set_instruction set_labels set_return_positions
       set_stack set_heap set_input set_output set_loading negb fst snd];
  repeat match goal with
         | H : pos ?s = Int _ |- context [pos ?s] => rewrite H
         end;
  cbv beta iota.

Ltac wp_step :=
  lazymatch goal with
  | |- wp (bind _ _) _ _ => apply wp_bind
  | |- wp (ret _) _ _ => apply wp_ret
  | |- wp (raise _) _ _ => apply wp_raise
  | |- wp (gets _) _ _ => apply wp_gets
  | |- wp (modify _) _ _ => apply wp_modify
  | |- wp (lift _) _ _ => apply wp_lift
  | |- wp int_pos _ _ =>
      apply wp_int_pos;
      [let H := fresh "Hpos" in
       intros ? H;
       cbn [pos set_pos set_command set_instruction set_labels
            set_return_positions set_stack] in H;
       try (injection H as <-)
      |let H := fresh "Hinf" in intros H]
  | |- wp stack_pop _ _ => apply wp_stack_pop; [intros ? ?|]
  | |- wp FlowControl.exit_subroutine _ _ =>
      apply wp_exit_subroutine; [intros ? ? ?|]
  | |- wp (when ?b _) _ _ => unfold when
  | |- wp (if ?c then _ else _) _ _ => destruct c eqn:?
  | |- wp (match ?x with _ => _ end) _ _ => destruct x eqn:?
  | |- match ?r with Ok _ => _ | Raise _ => _ end => destruct r eqn:?
  | |- wp _ _ _ =>
      apply (wp_preserves same_control);
      [solve [handlers] | intros ? ? (? & ? & ? & ? & ?)]
  end;
  wp_simpl.

Ltac control_arith :=
  repeat match goal with
         | |- context [if ?b then _ else _] => destruct b
         end;
  repeat match goal with
         | |- context [find ?c ?x ?i] =>
             lazymatch goal with
             | _ : -1 <= find c x i < len c |- _ => fail
             | _ => pose proof (find_range c x i)
             end
         | |- context [len (slice ?c ?p ?q)] =>
             lazymatch goal with
             | _ : 0 <= p <= len c -> 0 <= p + len (slice c p q) <= len c |- _ =>
                 fail
             | _ => pose proof (len_slice_le c p q)
             end
         end;
  lia.

Ltac control_leaf :=
  repeat match goal with
         | H : imp_lookup _ _ = Some (_, _) |- _ =>
             apply imp_lookup_Some in H as [-> _]
         end;
  unfold control_ok in *;
  cbn [pos command labels return_positions code loading instruction
       set_pos set_command set_instruction set_labels set_return_positions
       set_stack set_heap set_input set_output set_loading] in *;
  repeat match goal with
         | H : pos ?s = _ |- _ => rewrite H in *
         | H : command ?s = _ |- _ => rewrite H in *
         | H : labels ?s = _ |- _ => rewrite H in *
         | H : return_positions ?s = _ |- _ => rewrite H in *
         | H : code ?s = _ |- _ => rewrite H in *
         end;
  repeat match goal with
         | H : _ /\ _ |- _ => destruct H
         end;
  repeat apply conj; try done; try control_arith.

Lemma Stack_parse_control s :
  control_ok s -> wp Stack.parse (fun _ s' => control_ok s') s.
Proof.
  intros Hok. unfold Stack.parse, get_command, next_token, num_parameter, advance.
  repeat wp_step; control_leaf.
Qed.

Lemma Arithmetic_parse_control s :
  control_ok s -> wp Arithmetic.parse (fun _ s' => control_ok s') s.
Proof.
  intros Hok. unfold Arithmetic.parse, get_command, next_token, advance.
  repeat wp_step; control_leaf.
Qed.

Lemma Heap_parse_control s :
  control_ok s -> wp Heap.parse (fun _ s' => control_ok s') s.
Proof.
  intros Hok. unfold Heap.parse, get_command, next_token, advance.
  repeat wp_step; control_leaf.
Qed.

Lemma IO_parse_control `{Builtins} s :
  control_ok s -> wp IO.parse (fun _ s' => control_ok s') s.
Proof.
  intros Hok. unfold IO.parse, get_command, next_token, advance.
  repeat wp_step; control_leaf.
Qed.

Ltac flow_leaf :=
  lazymatch goal with
  | H : named ?x _ = true |- ?x = _ => by apply String.eqb_eq in H
  | |- forall k v, <[_:=_]> _ !! k = Some v -> _ =>
      intros ? ? [[_ <-]|[_ ?]]%lookup_insert_Some;
      [unfold fin_ok; control_arith | eauto]
  | Hl : labels ?s !! _ = Some ?n,
    H0 : forall k v, labels ?s !! k = Some v -> _
    |- match ?n with _ => _ end =>
      apply H0 in Hl; destruct n; [exact Hl | destruct Hl]
  | H1 : Forall _ (?l ++ [?p]) |- match ?p with _ => _ end =>
      apply Forall_app in H1 as [_ [H1 _]%Forall_cons];
      destruct p; [exact H1 | destruct H1]
  | H1 : Forall _ (?l ++ [_]) |- Forall _ ?l =>
      by apply Forall_app in H1 as [H1 _]
  | |- Forall _ (_ ++ [_]) =>
      apply Forall_app; split; [done|];
      apply Forall_cons; split; [unfold fin_ok; control_arith | by apply Forall_nil]
  | |- _ => idtac
  end.

Lemma FlowControl_parse_control s :
  control_ok s -> wp FlowControl.parse (fun _ s' => control_ok s') s.
Proof.
  intros Hok.
  unfold FlowControl.parse, get_command, next_token, label_parameter, advance,
    FlowControl.exit, FlowControl.mark_label, FlowControl.jump,
    FlowControl.call_subroutine, FlowControl.pos_plus.
  repeat wp_step; control_leaf; flow_leaf.
Qed.

Lemma wp_elim {A} (m : M A) Q s r s' : wp m Q s -> m s = (r, s') -> Q r s'.
Proof. unfold wp. intros H Heq. by rewrite Heq in H. Qed.

Lemma step_control `{Builtins} s :
  control_ok s -> wp step (fun _ s' => control_ok s') s.
Proof.
  intros Hok. unfold step, next_token, advance, dispatch.
  repeat wp_step;
    first [ apply Stack_parse_control | apply Arithmetic_parse_control
          | apply Heap_parse_control | apply IO_parse_control
          | apply FlowControl_parse_control | idtac ];
    control_leaf.
Qed.

Lemma while_loop_control `{Builtins} fuel : forall s r s',
  control_ok s -> while_loop fuel s = (r, s') -> control_ok s'.
Proof.
  induction fuel as [|fuel IH]; intros s r s' Hok; simpl.
  - destruct (in_program s); by intros [= _ <-].
  - destruct (in_program s); [|by intros [= _ <-]].
    pose proof (step_control s Hok) as Hstep. unfold wp in Hstep.
    destruct (step s) as [[[]|e] s1]; simpl in Hstep.
    + by apply IH.
    + by intros [= _ <-].
Qed.

Lemma run_control `{Builtins} fuel : forall s r s',
  control_ok s -> run fuel s = (r, s') -> control_ok s'.
Proof.
  induction fuel as [|fuel IH]; intros s r s' Hok; rewrite run_eq.
  - destruct (code_length s =? 0); [by intros [= _ <-]|].
    destruct (while_loop 0 s) as [o s1] eqn:Hloop.
    pose proof (while_loop_control _ _ _ _ Hok Hloop) as Hok1.
    destruct o; try (by intros [= _ <-]).
    destruct (loading s1); [by intros [= _ <-]|].
    intros Hep. by apply epilogue_state in Hep as ->.
  - destruct (code_length s =? 0); [by intros [= _ <-]|].
    destruct (while_loop (S fuel) s) as [o s1] eqn:Hloop.
    pose proof (while_loop_control _ _ _ _ Hok Hloop) as Hok1.
    destruct o; try (by intros [= _ <-]).
    destruct (loading s1).
    + apply IH. destruct Hok1 as (_ & Hl & Hr).
      split; [|by split]. cbn [pos set_loading set_pos code].
      pose proof (len_nonneg (code s1)). lia.
    + intros Hep. by apply epilogue_state in Hep as ->.
Qed.

Lemma control_ok_init c i : control_ok (Interpreter_init c i).
Proof.
  split; [|split].
  - simpl. pose proof (len_nonneg c). lia.
  - intros k v. simpl. by rewrite lookup_empty.
  - by apply Forall_nil.
Qed.

Lemma while_loop_Returned `{Builtins} fuel : forall s s',
  while_loop fuel s = (Returned, s') -> in_program s' = false.
Proof.
  induction fuel as [|fuel IH]; intros s s'; simpl.
  - destruct (in_program s) eqn:Hin; [done|]. by intros [= <-].
  - destruct (in_program s) eqn:Hin; [|by intros [= <-]].
    destruct (step s) as [[[]|e] s1]; [apply IH | done].
Qed.

(** The execution loop left without [exit]. *)
Lemma run_off_the_end `{Builtins} fuel s s' :
  control_ok s -> loading s = false -> code_length s <> 0 ->
  while_loop fuel s = (Returned, s') -> pos s' <> Inf ->
  run fuel s
  = (Raised (if bool_decide (return_positions s' = [])
             then RuntimeError else SyntaxError), s').
Proof.
  intros Hok Hl Hlen Hloop Hp.
  rewrite run_eq. apply Z.eqb_neq in Hlen. rewrite Hlen, Hloop.
  destruct (while_loop_same_phase _ _ _ _ Hloop) as [Hl' Hc].
  rewrite Hl', Hl.
  pose proof (while_loop_control _ _ _ _ Hok Hloop) as (Hpos & _ & _).
  pose proof (while_loop_Returned _ _ _ Hloop) as Hin.
  unfold in_program, code_length in Hin.
  destruct (pos s') as [p|] eqn:Hp'; [|done].
  apply Z.ltb_ge in Hin.
  assert (p = len (code s')) as -> by lia.
  unfold epilogue. rewrite Hp'. unfold code_length.
  rewrite (bool_decide_eq_false_2 (Int _ = Inf)) by done.
  rewrite (bool_decide_eq_true_2 (Int _ = Int _)) by done.
  by case_bool_decide.
Qed.

Lemma run_returns_via_exit `{Builtins} fuel s s' :
  control_ok s -> loading s = false ->
  run fuel s = (Returned, s') ->
  pos s' = Inf /\ command s' = "exit"%string /\ loading s' = false.
Proof.
  intros Hok Hl Hrun.
  pose proof (run_control _ _ _ _ Hok Hrun) as (Hpos & _ & _).
  pose proof (run_execution _ _ _ _ Hl Hrun) as Hl'.
  destruct (pos s') as [p|] eqn:Hp; [|done].
  exfalso. pose proof Hrun as Hrun0. rewrite run_eq in Hrun.
  destruct (code_length s =? 0) eqn:Hlen; [done|].
  apply Z.eqb_neq in Hlen.
  destruct (while_loop fuel s) as [o s1] eqn:Hloop.
  destruct o; try done.
  destruct (while_loop_same_phase _ _ _ _ Hloop) as [Hl1 _].
  rewrite Hl1, Hl in Hrun.
  pose proof (epilogue_state _ _ _ Hrun) as <-.
  assert (Hne : pos s' <> Inf) by (by rewrite Hp).
  pose proof (run_off_the_end fuel s s' Hok Hl Hlen Hloop Hne) as Hoff.
  congruence.
Qed.

Lemma control_ok_restart s :
  control_ok s -> control_ok (set_loading false (set_pos (Int 0) s)).
Proof.
  intros (_ & Hl & Hr). split; [|by split].
  cbn [pos set_loading set_pos code]. pose proof (len_nonneg (code s)). lia.
Qed.

(** X24: the control state stays sound: along every run the offset is
    within the program text or is the marker left by [exit], and every
    label and every return address is an offset within the program text.
    This holds from the initial state of any program, and is kept by
    every instruction. *)
Theorem control_invariant (B : Builtins) :
  (forall c inp fuel, control_ok (snd (run fuel (Interpreter_init c inp))))
  /\ (forall s, control_ok s ->
        control_ok (snd (step s))
        /\ forall fuel, control_ok (snd (run fuel s))).
Proof.
  assert (Hrun : forall s fuel, control_ok s -> control_ok (snd (run fuel s))).
  { intros s fuel Hok. destruct (run fuel s) as [r s'] eqn:Hr.
    by apply (run_control fuel s r s'). }
  split.
  - intros c inp fuel. apply Hrun, control_ok_init.
  - intros s Hok. split; [|intros fuel; by apply Hrun].
    destruct (step s) as [r s'] eqn:Hs.
    exact (wp_elim step _ s r s' (step_control s Hok) Hs).
Qed.

Lemma control_invariant_witness :
  control_ok (snd (@step no_int discovery_start))
  /\ control_ok (snd (@run no_int 8 discovery_start)).
Proof.
  destruct (proj2 (control_invariant no_int) discovery_start
              (control_ok_init mark_push_exit [])) as [Hstep Hrun].
  split; [exact Hstep | exact (Hrun 8%nat)].
Defined.

(** X25: a run returns only through [exit]: whenever [run] returns
    normally from a sound state, and so from the initial state of any
    program, the last instruction decoded was [exit], met in the
    execution phase. *)
Theorem return_means_exit (B : Builtins) (fuel : nat) (s s' : Interpreter)
  (Hok : control_ok s) (Hrun : run fuel s = (Returned, s')) :
  pos s' = Inf /\ command s' = "exit"%string /\ loading s' = false.
Proof.
  destruct (loading s) eqn:Hl.
  - rewrite run_eq in Hrun.
    destruct (code_length s =? 0); [done|].
    destruct (while_loop fuel s) as [o s1] eqn:Hloop.
    destruct o; try done.
    destruct (while_loop_discovery fuel s _ s1 Hl Hloop)
      as [(_ & _ & _ & _ & _ & _ & Hl1) _].
    rewrite Hl1 in Hrun. destruct fuel as [|fuel]; [done|].
    apply (run_returns_via_exit fuel (set_loading false (set_pos (Int 0) s1)));
      [|reflexivity|done].
    apply control_ok_restart. by apply (while_loop_control _ _ _ _ Hok Hloop).
  - by apply (run_returns_via_exit fuel s).
Qed.

Lemma return_means_exit_witness :
  pos (snd (@run no_int 10 (Interpreter_init print_zero []))) = Inf
  /\ command (snd (@run no_int 10 (Interpreter_init print_zero [])))
     = "exit"%string
  /\ loading (snd (@run no_int 10 (Interpreter_init print_zero []))) = false.
Proof.
  apply (return_means_exit no_int 10 (Interpreter_init print_zero [])).
  - apply control_ok_init.
  - vm_compute. reflexivity.
Defined.

(** X26: when the execution loop runs off the end of the program without
    meeting [exit], the offset is exactly the length of the program and
    [run] raises: [RuntimeError] if no subroutine is open, [SyntaxError]
    if the return stack is not empty. *)
Theorem falling_off_the_end (B : Builtins) (fuel : nat) (s s' : Interpreter)
  (Hok : control_ok s) (Hload : loading s = false)
  (Hlen : code_length s <> 0)
  (Hloop : while_loop fuel s = (Returned, s')) (Hpos : pos s' <> Inf) :
  pos s' = Int (code_length s)
  /\ run fuel s
     = (Raised (if bool_decide (return_positions s' = [])
                then RuntimeError else SyntaxError), s').
Proof.
  split; [|by apply run_off_the_end].
  pose proof (while_loop_control _ _ _ _ Hok Hloop) as (Hp & _ & _).
  pose proof (while_loop_Returned _ _ _ Hloop) as Hin.
  destruct (while_loop_same_phase _ _ _ _ Hloop) as [_ Hc].
  unfold in_program, code_length in *. rewrite <- Hc.
  destruct (pos s') as [p|]; [|done].
  apply Z.ltb_ge in Hin. f_equal. lia.
Qed.

Lemma control_ok_push_without_exit : control_ok push_without_exit.
Proof.
  split; [|split].
  - vm_compute. split; discriminate.
  - intros k v. simpl. by rewrite lookup_empty.
  - by apply Forall_nil.
Qed.

Lemma falling_off_the_end_witness :
  pos (snd (@while_loop no_int 1 push_without_exit))
  = Int (code_length push_without_exit)
  /\ @run no_int 1 push_without_exit
     = (Raised RuntimeError, snd (@while_loop no_int 1 push_without_exit)).
Proof.
  apply (falling_off_the_end no_int 1 push_without_exit
           (snd (@while_loop no_int 1 push_without_exit))
           control_ok_push_without_exit eq_refl).
  - vm_compute. discriminate.
  - vm_compute. reflexivity.
  - vm_compute. discriminate.
Defined.

(** ** Output, input and labels along a run *)

Lemma io_monotone_refl s : io_monotone s s.
Proof. by split. Qed.

Lemma io_monotone_trans s1 s2 s3 :
  io_monotone s1 s2 -> io_monotone s2 s3 -> io_monotone s1 s3.
Proof. intros [? ?] [? ?]. split; by etrans. Qed.

Lemma input_char_io : preserves io_monotone IO.input_char.
Proof.
  intros s r s'. unfold IO.input_char, bind, IO.input_pop_front, stack_pop, modify.
  destruct (input s) as [|a more] eqn:Hin; [intros [= _ <-]; by split|].
  cbn [stack set_input].
  destruct (list_pop (stack s)) as [[b rest]|]; intros [= _ <-];
    (split; [done|]); cbn [input set_input set_stack set_heap]; rewrite Hin;
    by apply suffix_cons_r.
Qed.

Lemma input_num_io `{Builtins} : preserves io_monotone IO.input_num.
Proof.
  intros s r s'. unfold IO.input_num, bind, stack_pop, gets, lift, modify.
  destruct (list_pop (stack s)) as [[b rest]|]; [|intros [= _ <-]; by split].
  cbn [input set_stack].
  destruct (list_index LF (input s)) as [index|e]; [|intros [= _ <-]; by split].
  destruct (int_of_str _); intros [= _ <-];
    (split; [done|]); cbn [input set_input set_stack set_heap];
    apply suffix_drop.
Qed.

Ltac io_side :=
  split; cbn [output input set_pos set_command set_instruction set_labels
              set_return_positions set_stack set_heap set_output];
  first [reflexivity | by apply prefix_app_r].

Lemma step_io `{Builtins} : preserves io_monotone step.
Proof.
  unfold step, dispatch, next_token, advance,
    Stack.parse, Arithmetic.parse, Heap.parse, IO.parse, FlowControl.parse,
    get_command, next_token, num_parameter, label_parameter, advance, when,
    Stack.push_num, Stack.duplicate_nth, Stack.discard_n, Stack.discard_top,
    Stack.swap, Arithmetic.add, Arithmetic.sub, Arithmetic.mul,
    Arithmetic.floordiv, Arithmetic.mod_, Heap.store, Heap.push,
    IO.output_char, IO.output_num, console_print,
    FlowControl.exit, FlowControl.mark_label, FlowControl.jump,
    FlowControl.call_subroutine, stack_append.
  repeat first
    [ apply input_char_io
    | apply input_num_io
    | preserving_step io_monotone_refl io_monotone_trans io_side ].
Qed.

Lemma while_loop_io `{Builtins} fuel : forall s r s',
  while_loop fuel s = (r, s') -> io_monotone s s'.
Proof.
  induction fuel as [|fuel IH]; intros s r s'; simpl.
  - destruct (in_program s); intros [= _ <-]; apply io_monotone_refl.
  - destruct (in_program s); [|intros [= _ <-]; apply io_monotone_refl].
    destruct (step s) as [[[]|e] s1] eqn:Hstep.
    + intros Hrun. eapply io_monotone_trans; [|by eapply IH].
      by eapply step_io.
    + intros [= _ <-]. by eapply step_io.
Qed.

Lemma run_io `{Builtins} fuel : forall s r s',
  run fuel s = (r, s') -> io_monotone s s'.
Proof.
  induction fuel as [|fuel IH]; intros s r s'; rewrite run_eq;
    (destruct (code_length s =? 0);
     [intros [= _ <-]; apply io_monotone_refl|]);
    destruct (while_loop _ s) as [o s1] eqn:Hloop;
    pose proof (while_loop_io _ _ _ _ Hloop) as Hio;
    (destruct o; try (by intros [= _ <-]));
    destruct (loading s1); try (by intros [= _ <-]);
    try (intros Hep; by apply epilogue_state in Hep as ->).
  intros Hrun. eapply io_monotone_trans; [exact Hio|].
  exact (IH _ _ _ Hrun).
Qed.

(** X27: no instruction and no run takes back output or puts back input:
    the output at the end starts with the output at the start, and the
    input at the end is a tail of the input at the start, whether the run
    returns, raises or is cut short. *)
Theorem output_grows_input_shrinks (B : Builtins) (s : Interpreter) :
  (output s `prefix_of` output (snd (step s))
   /\ input (snd (step s)) `suffix_of` input s)
  /\ forall fuel,
       output s `prefix_of` output (snd (run fuel s))
       /\ input (snd (run fuel s)) `suffix_of` input s.
Proof.
  split.
  - destruct (step s) as [r s'] eqn:Hs. exact (step_io s r s' Hs).
  - intros fuel. destruct (run fuel s) as [r s'] eqn:Hr.
    exact (run_io fuel s r s' Hr).
Qed.

Lemma labels_frozen_refl s : labels_frozen s s.
Proof. by intros Hl. Qed.

Lemma labels_frozen_trans s1 s2 s3 :
  labels_frozen s1 s2 -> labels_frozen s2 s3 -> labels_frozen s1 s3.
Proof.
  intros H12 H23 Hl. destruct (H12 Hl) as [Hlab Hl2].
  destruct (H23 Hl2) as [Hlab' Hl3]. split; congruence.
Qed.

(** In the execution phase [self.loading] reads as false. *)
Lemma preserves_frozen_loading {A} (k : bool -> M A) :
  preserves labels_frozen (k false) ->
  preserves labels_frozen (bind (gets loading) k).
Proof.
  intros Hk s r s' Hrun Hl. unfold bind, gets in Hrun. rewrite Hl in Hrun.
  by apply (Hk s r s').
Qed.

Ltac frozen_side := intros Hfrozen; split; [reflexivity | exact Hfrozen].

Ltac executing :=
  repeat first
    [ apply preserves_frozen_loading; cbv beta; cbn [when negb]
    | preserving_step labels_frozen_refl labels_frozen_trans frozen_side ].

Lemma step_labels_frozen `{Builtins} : preserves labels_frozen step.
Proof.
  unfold step, dispatch, next_token, advance,
    Stack.parse, Arithmetic.parse, Heap.parse, IO.parse, FlowControl.parse,
    get_command, next_token, num_parameter, label_parameter, advance,
    Stack.push_num, Stack.duplicate_nth, Stack.discard_n, Stack.discard_top,
    Stack.swap, Arithmetic.add, Arithmetic.sub, Arithmetic.mul,
    Arithmetic.floordiv, Arithmetic.mod_, Heap.store, Heap.push,
    IO.output_char, IO.output_num, IO.input_char, IO.input_num, console_print,
    FlowControl.exit, FlowControl.jump,
    FlowControl.call_subroutine, stack_append.
  executing.
Qed.

Lemma while_loop_labels_frozen `{Builtins} fuel : forall s r s',
  while_loop fuel s = (r, s') -> labels_frozen s s'.
Proof.
  induction fuel as [|fuel IH]; intros s r s'; simpl.
  - destruct (in_program s); intros [= _ <-]; apply labels_frozen_refl.
  - destruct (in_program s); [|intros [= _ <-]; apply labels_frozen_refl].
    destruct (step s) as [[[]|e] s1] eqn:Hstep.
    + intros Hrun. eapply labels_frozen_trans; [|by eapply IH].
      by eapply step_labels_frozen.
    + intros [= _ <-]. by eapply step_labels_frozen.
Qed.

(** X28: the label table is frozen in the execution phase: an instruction
    executed there, [mark_label] included, leaves it as it is, and so
    does a whole run entered in that phase. *)
Theorem execution_keeps_labels (B : Builtins) (s : Interpreter)
  (Hload : loading s = false) :
  labels (snd (step s)) = labels s
  /\ forall fuel, labels (snd (run fuel s)) = labels s.
Proof.
  split.
  - destruct (step s) as [r s'] eqn:Hs.
    by destruct (step_labels_frozen s r s' Hs Hload).
  - intros fuel. rewrite run_eq.
    destruct (code_length s =? 0); [done|].
    destruct (while_loop fuel s) as [o s1] eqn:Hloop.
    destruct (while_loop_labels_frozen fuel s o s1 Hloop Hload) as [Hlab Hl1].
    destruct o; [|done..]. rewrite Hl1.
    destruct (epilogue s1) as [r s'] eqn:Hep.
    by apply epilogue_state in Hep as ->.
Qed.

Lemma execution_keeps_labels_witness :
  labels (snd (@step no_int call_space)) = labels call_space
  /\ labels (snd (@run no_int 4 call_space)) = labels call_space.
Proof.
  destruct (execution_keeps_labels no_int call_space eq_refl) as [Hstep Hrun].
  split; [exact Hstep | exact (Hrun 4%nat)].
Defined.

(** ** Programs with nothing in them *)

Lemma uncomment_nothing (text : str) :
  (forall c, c ∈ text -> ~ significant c) -> uncomment text = [].
Proof.
  induction text as [|c text IH]; intros Hnone; [done|].
  unfold uncomment in *. rewrite filter_cons.
  destruct (decide (c = SPACE \/ c = TAB \/ c = LF)) as [Hc|_].
  - destruct (Hnone c); [apply list_elem_of_here | exact Hc].
  - apply IH. intros c' Hc'. apply Hnone. by apply list_elem_of_further.
Qed.

(** X29: a text without any space, tab or line-feed is an empty program:
    [whitespace] raises [SyntaxError] on it at once, whatever the input,
    with no output. *)
Theorem whitespace_empty_program (B : Builtins) (fuel : nat)
  (text inp : str) (Hnone : forall c, c ∈ text -> ~ significant c) :
  whitespace fuel text inp = (Raised SyntaxError, [])
  /\ run fuel (Interpreter_init [] inp)
     = (Raised SyntaxError, Interpreter_init [] inp).
Proof.
  assert (Hrun : run fuel (Interpreter_init [] inp)
                 = (Raised SyntaxError, Interpreter_init [] inp))
    by (by rewrite run_eq).
  split; [|done].
  unfold whitespace. rewrite (uncomment_nothing text Hnone). by rewrite Hrun.
Qed.

Lemma whitespace_empty_program_witness :
  @whitespace no_int 3 only_comments [65] = (Raised SyntaxError, []).
Proof.
  apply (proj1 (whitespace_empty_program no_int 3 only_comments [65]
                  ltac:(intros c Hc [->| [->| ->]];
                        repeat (apply elem_of_cons in Hc as [Hc|Hc];
                                [discriminate|]);
                        by apply elem_of_nil in Hc))).
Defined.

(** ** The family prefix *)

Lemma slice_tail {A} (c pre l : list A) (p q : Z) :
  c = pre ++ l -> p = len pre -> len c <= q -> slice c p q = l.
Proof.
  intros -> -> Hq. unfold slice.
  pose proof (len_nonneg pre). pose proof (len_nonneg l).
  rewrite len_app in *.
  rewrite (clamp_inside _ (len pre)) by lia.
  assert (Hc : clamp (len pre + len l) q = len pre + len l).
  { unfold clamp. destruct (Z.ltb_spec q 0); lia. }
  rewrite Hc.
  replace (len pre + len l - len pre) with (len l) by lia.
  unfold len. rewrite !Nat2Z.id.
  rewrite drop_app_length. by rewrite firstn_all.
Qed.

Ltac in_table :=
  repeat first [apply list_elem_of_here | apply list_elem_of_further].

(** X30: on a sanitized program the family prefix is always recognised,
    except for a lone tab at the very end of the program, which is the
    one unknown instruction: there [step] raises [SyntaxError] and leaves
    the state as it is; anywhere else it selects an entry of the table
    whose key is the text at the offset and moves past that key. *)
Theorem family_prefix_total (B : Builtins) (s : Interpreter)
  (pre rest : str) (x : char)
  (Hcode : code s = pre ++ x :: rest) (Hpos : pos s = Int (len pre))
  (Hx : significant x) (Hrest : Forall significant rest) :
  (x = TAB /\ rest = [] -> step s = (Raise SyntaxError, s))
  /\ (~ (x = TAB /\ rest = []) ->
      exists key family,
        (key, family) ∈ IMP
        /\ slice (code s) (len pre) (len pre + len key) = key
        /\ step s
           = dispatch (set_pos (Int (len pre + len key))
                         (set_instruction family s))).
Proof.
  assert (H1 : slice (code s) (len pre) (len pre + 1) = [x])
    by (by apply (slice_segment _ pre [x] rest)).
  split.
  - intros [-> ->].
    assert (H2 : slice (code s) (len pre) (len pre + 2) = [TAB]).
    { apply (slice_tail _ pre [TAB]); [done..|].
      rewrite Hcode, len_app. change (len [TAB]) with 1. lia. }
    unfold step.
    rewrite (bind_ok _ _ _ _ _ (next_token_eq IMP s (len pre) _ _ Hpos H1 H2)).
    reflexivity.
  - intros Hnot.
    destruct Hx as [->|[->| ->]].
    + exists [SPACE], "Stack"%string. split; [in_table|]. split; [done|].
      by apply (step_eq s (len pre) [SPACE]
                  (slice (code s) (len pre) (len pre + 2)) [SPACE] "Stack").
    + destruct rest as [|y rest]; [by destruct Hnot|].
      assert (H2 : slice (code s) (len pre) (len pre + 2) = [TAB; y])
        by (by apply (slice_segment _ pre [TAB; y] rest)).
      apply Forall_cons in Hrest as [[->|[->| ->]] _].
      * exists [TAB; SPACE], "Arithmetic"%string.
        split; [in_table|]. split; [done|].
        by apply (step_eq s (len pre) [TAB] [TAB; SPACE]).
      * exists [TAB; TAB], "Heap"%string.
        split; [in_table|]. split; [done|].
        by apply (step_eq s (len pre) [TAB] [TAB; TAB]).
      * exists [TAB; LF], "IO"%string.
        split; [in_table|]. split; [done|].
        by apply (step_eq s (len pre) [TAB] [TAB; LF]).
    + exists [LF], "FlowControl"%string. split; [in_table|]. split; [done|].
      by apply (step_eq s (len pre) [LF]
                  (slice (code s) (len pre) (len pre + 2)) [LF] "FlowControl").
Qed.

Lemma family_prefix_total_witness :
  @step no_int dangling_tab = (Raise SyntaxError, dangling_tab).
Proof.
  apply (proj1 (family_prefix_total no_int dangling_tab
                  [SPACE; SPACE; SPACE; TAB; LF] [] TAB eq_refl eq_refl
                  ltac:(right; by left) ltac:(by apply Forall_nil))).
  by split.
Defined.

(** * The discovery phase as a whole *)











